(** * Note2Brain (Note2MCQ): the note store, the chat history, the quiz view
      and the AI gateway, embedded from the TypeScript sources.

    - [types.ts]            the records [Note], [Question], [Quiz], [ChatMessage]
    - [geminiService.ts]    [generateQuizFromNotes], [getChatResponseStream],
                            [extractTextFromImage]
    - [App.tsx]             [addNote], [deleteNote], [handleNewChatMessage],
                            [handleQuizComplete], [renderView]
    - [ChatView.tsx]        [handleSend]
    - [NoteUploader.tsx]    the component [NoteUploader]; the component
                            [QuizView]: [fetchQuiz], [handleSelectAnswer],
                            [handleNext], [getOptionClass], the Review
                            Answers button

    React state is a record of the [useState] cells; a handler is a program in
    a small state-and-exception monad over that record.  Everything the
    handlers obtain from outside (the system clock, the generative-AI service,
    [JSON.parse]) is a field of an environment record [Env].

    Conventions.  Strings are sequences of UTF-16 code units.  Numbers that
    index or count are integers.  The [text] of a service response is a
    string, as the source uses it.  An [await] is the point where the
    environment answers; an asynchronous handler runs to its end before the
    next one starts.  A handler made by a render closes over the state that
    render read.  The check of [process.env.API_KEY] at module load and the
    rendering of the views are outside the model, except for which controls
    the components offer, and for which rows of the list of notes React
    keeps from one render to the next. *)

From Stdlib Require Import ZArith Ascii String DecimalString.
From stdpp Require Import base list numbers strings.

Set Warnings "-register-all".
Open Scope Z_scope.

(** ** JavaScript strings

    A JavaScript string is a sequence of UTF-16 code units; [length] counts
    code units. *)

Definition jsstring : Type := list N.

(** An ASCII literal of the source as a [jsstring]. *)
Definition lit (s : string) : jsstring := N_of_ascii <$> list_ascii_of_string s.

(** The escape [\n]. *)
Definition nl : jsstring := [10%N].

(** ECMAScript [WhiteSpace] and [LineTerminator] code points: the characters
    [String.prototype.trim] strips. *)
Definition isWhiteSpace (c : N) : bool :=
  ((c =? 0x09) || (c =? 0x0A) || (c =? 0x0B) || (c =? 0x0C) || (c =? 0x0D)
   || (c =? 0x20) || (c =? 0xA0) || (c =? 0x1680)
   || ((0x2000 <=? c) && (c <=? 0x200A))
   || (c =? 0x2028) || (c =? 0x2029) || (c =? 0x202F) || (c =? 0x205F)
   || (c =? 0x3000) || (c =? 0xFEFF))%N.

Fixpoint trimStart (s : jsstring) : jsstring :=
  match s with
  | c :: s' => if isWhiteSpace c then trimStart s' else s
  | [] => []
  end.

Definition trimEnd (s : jsstring) : jsstring := reverse (trimStart (reverse s)).

(** [s.trim()] *)
Definition trim (s : jsstring) : jsstring := trimEnd (trimStart s).

(** [parts.join(sep)] *)
Fixpoint join (sep : jsstring) (parts : list jsstring) : jsstring :=
  match parts with
  | [] => []
  | [p] => p
  | p :: ps => p ++ sep ++ join sep ps
  end.

(** [n.toString()] for an integral number: its decimal numeral. *)
Definition toString (n : Z) : jsstring := lit (NilZero.string_of_int (Z.to_int n)).

(** ** Dates

    A [Date] is its time value, the milliseconds since the epoch.
    [toISOString] renders it as [YYYY-MM-DDTHH:mm:ss.sssZ] in the proleptic
    Gregorian calendar (years outside 0..9999 take a sign and six digits). *)

Definition msPerDay : Z := 86400000.

(** Zero-padded decimal numeral of [n >= 0] on [width] digits. *)
Fixpoint pad (width : nat) (n : Z) : jsstring :=
  match width with
  | O => []
  | S w => pad w (n / 10) ++ [Z.to_N (48 + n mod 10)]
  end.

(** Year, month and day of a day number counted from 1970-01-01. *)
Definition civilFromDays (days : Z) : Z * Z * Z :=
  let z := days + 719468 in
  let era := z / 146097 in
  let doe := z - era * 146097 in
  let yoe := (doe - doe / 1460 + doe / 36524 - doe / 146096) / 365 in
  let doy := doe - (365 * yoe + yoe / 4 - yoe / 100) in
  let mp := (5 * doy + 2) / 153 in
  let d := doy - (153 * mp + 2) / 5 + 1 in
  let m := if mp <? 10 then mp + 3 else mp - 9 in
  let y := yoe + era * 400 + (if m <=? 2 then 1 else 0) in
  (y, m, d).

Definition isoYear (y : Z) : jsstring :=
  if (0 <=? y) && (y <=? 9999) then pad 4 y
  else (if y <? 0 then lit "-" else lit "+") ++ pad 6 (Z.abs y).

Definition toISOString (t : Z) : jsstring :=
  let '(y, m, d) := civilFromDays (t / msPerDay) in
  let ms := t mod msPerDay in
  isoYear y ++ lit "-" ++ pad 2 m ++ lit "-" ++ pad 2 d ++ lit "T"
  ++ pad 2 (ms / 3600000) ++ lit ":" ++ pad 2 (ms / 60000 mod 60) ++ lit ":"
  ++ pad 2 (ms / 1000 mod 60) ++ lit "." ++ pad 3 (ms mod 1000) ++ lit "Z".

(** ** [types.ts] *)

Inductive NoteType := text | image.

Module Note.
Record t := mk {
    id : jsstring;
    title : jsstring;
    content : jsstring;
    createdAt : Z;
    type : NoteType;
  }.
End Note.

Module Question.
Record t := mk {
    question : jsstring;
    options : list jsstring;
    correctAnswerIndex : Z;
  }.
End Question.

Module Quiz.
Record t := mk {
    id : jsstring;
    questions : list Question.t;
    createdAt : Z;
    score : option Z;
  }.
End Quiz.

Inductive Role := user | model.

Module ChatMessage.
Record t := mk {
    id : jsstring;
    role : Role;
    text : jsstring;
  }.
End ChatMessage.

Inductive View := dashboard | quiz | chat | history.

(** ** Values at run time *)

(** A thrown value: an [Error] object with its [message], or anything else. *)
Inductive Thrown :=
  | Error (message : jsstring)
  | NonError.

(** The values [JSON.parse] produces.  An object is the list of its own
    properties, each key once.  Numbers are the integral ones. *)
Inductive json :=
  | JNull
  | JBool (b : bool)
  | JNum (n : Z)
  | JStr (s : jsstring)
  | JArr (items : list json)
  | JObj (fields : list (jsstring * json)).

(** The result of reading a property: a value, or [undefined]. *)
Inductive jsval :=
  | Undefined
  | Val (v : json).

Definition lookupField (k : jsstring) (fields : list (jsstring * json)) : jsval :=
  match list_find (λ kv, kv.1 = k) fields with
  | Some (_, (_, v)) => Val v
  | None => Undefined
  end.

(** The [TypeError] raised by a property read on [null]. *)
Definition TypeError : Thrown :=
  Error (lit "Cannot read properties of null (reading 'questions')").

(** [v.questions]: throws on [null], is [undefined] on every value that is
    not an object with that property. *)
Definition dot_questions (v : json) : Thrown + jsval :=
  match v with
  | JNull => inl TypeError
  | JObj fields => inr (lookupField (lit "questions") fields)
  | _ => inr Undefined
  end.

(** [x.length] on a value that is neither [null] nor [undefined]. *)
Definition dot_length (v : json) : jsval :=
  match v with
  | JArr items => Val (JNum (Z.of_nat (length items)))
  | JStr s => Val (JNum (Z.of_nat (length s)))
  | JObj fields => lookupField (lit "length") fields
  | _ => Undefined
  end.

(** [!x] is [negb (truthy x)]. *)
Definition truthy (x : jsval) : bool :=
  match x with
  | Undefined | Val JNull | Val (JBool false) | Val (JNum 0) | Val (JStr []) => false
  | _ => true
  end.

(** [x === 0] *)
Definition strictEqZero (x : jsval) : bool :=
  match x with
  | Val (JNum 0) => true
  | _ => false
  end.

(** [x.length] where [x] may be [undefined] (the source reads it only when
    [x] is truthy). *)
Definition lengthOf (x : jsval) : jsval :=
  match x with
  | Val q => dot_length q
  | Undefined => Undefined
  end.

(** The reading of a parsed value at the type [Question] that the source
    gives it by annotation. *)
Definition asStrings (v : json) : option (list jsstring) :=
  match v with
  | JArr items => mapM (λ i, match i with JStr s => Some s | _ => None end) items
  | _ => None
  end.

Definition asQuestion (v : json) : option Question.t :=
  match v with
  | JObj fields =>
      match lookupField (lit "question") fields,
            lookupField (lit "options") fields,
            lookupField (lit "correctAnswerIndex") fields with
      | Val (JStr q), Val opts, Val (JNum i) =>
          os ← asStrings opts; Some (Question.mk q os i)
      | _, _, _ => None
      end
  | _ => None
  end.

Definition asQuestions (x : jsval) : option (list Question.t) :=
  match x with
  | Val (JArr items) => mapM asQuestion items
  | _ => None
  end.

(** ** The generative-AI service *)

(** [quizSchema]: the response schema sent with the quiz request. *)
Inductive Schema :=
  | SObject (properties : list (string * Schema)) (required : list string)
  | SArray (description : string) (items : Schema)
  | SString (description : string)
  | SInteger (description : string)
  | SPlainString.

Definition quizSchema : Schema :=
  SObject
    [("questions",
      SArray "A list of 5 multiple-choice questions."
        (SObject
           [("question", SString "The question text.");
            ("options", SArray "An array of 4 possible answers." SPlainString);
            ("correctAnswerIndex",
             SInteger "The 0-based index of the correct answer in the options array.")]
           ["question"; "options"; "correctAnswerIndex"]))]
    ["questions"].

Definition quizGenerationModel : jsstring := lit "gemini-2.5-flash".
Definition chatModel : jsstring := lit "gemini-2.5-flash".

Module QuizRequest.
Record t := mk {
    model : jsstring;
    contents : jsstring;
    responseMimeType : jsstring;
    responseSchema : Schema;
  }.
End QuizRequest.

Module Content.
Record t := mk {
    role : Role;
    parts : list jsstring;
  }.
End Content.

Module ChatRequest.
Record t := mk {
    model : jsstring;
    contents : list Content.t;
    systemInstruction : jsstring;
  }.
End ChatRequest.

Module GenerateContentResponse.
Record t := mk { text : jsstring }.
End GenerateContentResponse.

(** A response stream: the chunks it yields, in order, and how it ends:
    cleanly ([None]) or by throwing ([Some e]). *)
Module Stream.
Record t := mk {
    chunks : list GenerateContentResponse.t;
    failure : option Thrown;
  }.
End Stream.

(** What the handlers obtain from outside the program. *)
Record Env := {
(** the [k]-th reading of the system clock, in milliseconds *)
  clock : nat → Z;
(** [ai.models.generateContent] *)
  generateContent : QuizRequest.t → Thrown + GenerateContentResponse.t;
(** [ai.models.generateContentStream] *)
  generateContentStream : ChatRequest.t → Thrown + Stream.t;
(** [JSON.parse] *)
  JSON_parse : jsstring → Thrown + json;
}.

(** What the program does to the outside. *)
Inductive Event :=
  | CallGenerateContent (req : QuizRequest.t)
  | CallGenerateContentStream (req : ChatRequest.t)
  | ConsoleError (label : jsstring) (e : Thrown).

(** ** React state *)

(** The [useState] cells of [App]. *)
Module App.
Record t := mk {
    view : View;
    notes : list Note.t;
    chatHistory : list ChatMessage.t;
    quizHistory : list Quiz.t;
    isUploaderOpen : bool;
    activeNote : option Note.t;
  }.
Definition init : t := mk dashboard [] [] [] false None.
End App.

(** The [useState] cells of [ChatView]. *)
Module ChatView.
Record t := mk {
    input : jsstring;
    isLoading : bool;
    error : option jsstring;
  }.
Definition init : t := mk [] false None.
End ChatView.

(** An element of [selectedAnswers]: a number, [null], or [undefined] (what
    a hole or an index past the end reads as). *)
Inductive Selected :=
  | SUndefined
  | SNull
  | SNum (n : Z).

#[global] Instance Selected_eq_dec : EqDecision Selected.
Proof. solve_decision. Defined.

(** The [useState] cells of [QuizView]. *)
Module QuizView.
Record t := mk {
    questions : list Question.t;
    isLoading : bool;
    error : option jsstring;
    currentQuestionIndex : Z;
    selectedAnswers : list Selected;
    isFinished : bool;
    score : Z;
  }.
Definition init : t := mk [] true None 0 [] false 0.
End QuizView.

Record World := mkWorld {
  app : App.t;
  chatView : ChatView.t;
  quizView : QuizView.t;
(** events so far, oldest first *)
  log : list Event;
(** number of clock readings so far *)
  reads : nat;
}.

Definition initWorld : World := mkWorld App.init ChatView.init QuizView.init [] 0.

Definition withApp (f : App.t → App.t) (w : World) : World :=
  mkWorld (f (app w)) (chatView w) (quizView w) (log w) (reads w).
Definition withChatView (f : ChatView.t → ChatView.t) (w : World) : World :=
  mkWorld (app w) (f (chatView w)) (quizView w) (log w) (reads w).
Definition withQuizView (f : QuizView.t → QuizView.t) (w : World) : World :=
  mkWorld (app w) (chatView w) (f (quizView w)) (log w) (reads w).
Definition withLog (f : list Event → list Event) (w : World) : World :=
  mkWorld (app w) (chatView w) (quizView w) (f (log w)) (reads w).
Definition withReads (f : nat → nat) (w : World) : World :=
  mkWorld (app w) (chatView w) (quizView w) (log w) (f (reads w)).

(** ** The monad of handlers: state and exceptions *)

Definition Eff (A : Type) : Type := World → (Thrown + A) * World.

#[global] Instance Eff_ret : MRet Eff := λ A a w, (inr a, w).

#[global] Instance Eff_bind : MBind Eff := λ A B f m w,
  match m w with
  | (inl e, w') => (inl e, w')
  | (inr a, w') => f a w'
  end.

Definition throw {A} (e : Thrown) : Eff A := λ w, (inl e, w).

(** [try { body } catch (e) { handler e }] *)
Definition tryCatch {A} (body : Eff A) (handler : Thrown → Eff A) : Eff A := λ w,
  match body w with
  | (inl e, w') => handler e w'
  | (inr a, w') => (inr a, w')
  end.

(** [try { body } finally { final }] *)
Definition tryFinally {A} (body : Eff A) (final : Eff unit) : Eff A := λ w,
  match body w with
  | (r, w') =>
      match final w' with
      | (inl e, w'') => (inl e, w'')
      | (inr _, w'') => (r, w'')
      end
  end.

Definition get : Eff World := λ w, (inr w, w).
Definition modify (f : World → World) : Eff unit := λ w, (inr tt, f w).

(** A value or an exception coming from the environment. *)
Definition liftResult {A} (r : Thrown + A) : Eff A := λ w, (r, w).

Definition emit (ev : Event) : Eff unit := modify (withLog (λ l, l ++ [ev])).

(** [console.error(label, e)] *)
Definition console_error (label : jsstring) (e : Thrown) : Eff unit :=
  emit (ConsoleError label e).

Section Environment.
Context (E : Env).

(** [Date.now()], and the time value of [new Date()]. *)
Definition Date_now : Eff Z := λ w,
  (inr (clock E (reads w)), withReads S w).

Definition ai_models_generateContent (req : QuizRequest.t)
  : Eff GenerateContentResponse.t :=
  emit (CallGenerateContent req);; liftResult (generateContent E req).

Definition ai_models_generateContentStream (req : ChatRequest.t) : Eff Stream.t :=
  emit (CallGenerateContentStream req);; liftResult (generateContentStream E req).

(** ** [geminiService.ts] *)

(** The context blob both gateway functions build from the notes. *)
Definition allNotesContent (notes : list Note.t) : jsstring :=
  join (nl ++ nl ++ lit "---" ++ nl ++ nl)
    ((λ note, lit "Note Title: " ++ Note.title note ++ nl
              ++ lit "Content:" ++ nl ++ Note.content note) <$> notes).

Definition notEnoughContent : Thrown :=
  Error (lit "Not enough content to generate a quiz. Please add more notes.").
Definition aiFailedToGenerate : Thrown :=
  Error (lit "AI failed to generate quiz questions.").
Definition failedToGenerateQuiz : Thrown :=
  Error (lit "Failed to generate quiz from AI. The content might be too complex or the service is unavailable.").

Definition quizPrompt (context : jsstring) : jsstring :=
  lit "Based on the following notes, generate a 5-question multiple-choice quiz. The questions should test key concepts from the notes."
  ++ nl ++ nl ++ lit "CONTEXT:" ++ nl ++ context.

Definition quizRequest (context : jsstring) : QuizRequest.t :=
  QuizRequest.mk quizGenerationModel (quizPrompt context)
    (lit "application/json") quizSchema.

Definition generateQuizFromNotes (notes : list Note.t) : Eff jsval :=
  let allNotesContent := allNotesContent notes in
  if bool_decide (Z.of_nat (length (trim allNotesContent)) < 50) then
    throw notEnoughContent
  else
    tryCatch
      (response ← ai_models_generateContent (quizRequest allNotesContent);
       let jsonText := GenerateContentResponse.text response in
       result ← liftResult (JSON_parse E jsonText);
       questions ← liftResult (dot_questions result);
       if negb (truthy questions)
          || strictEqZero (lengthOf questions)
       then throw aiFailedToGenerate
       else mret questions)
      (λ error,
         console_error (lit "Error generating quiz:") error;;
         throw failedToGenerateQuiz).

Definition chatSystemInstruction (context : jsstring) : jsstring :=
  lit "You are a helpful study assistant called Note2Brain. Your sole purpose is to answer questions based ONLY on the provided context from the user's notes. Do not use any external knowledge. If the answer cannot be found in the provided notes, clearly state that the information is not available in the notes. Here is the context:"
  ++ nl ++ nl ++ context.

Definition failedToGetChatResponse : Thrown :=
  Error (lit "Failed to get chat response from AI.").

Definition getChatResponseStream (notes : list Note.t)
    (chatHistory : list (Role * jsstring)) : Eff Stream.t :=
  let allNotesContent := allNotesContent notes in
  let contents := (λ msg, Content.mk msg.1 [msg.2]) <$> chatHistory in
  tryCatch
    (ai_models_generateContentStream
       (ChatRequest.mk chatModel contents (chatSystemInstruction allNotesContent)))
    (λ error,
       console_error (lit "Error getting chat response:") error;;
       throw failedToGetChatResponse).

End Environment.

(** ** Arrays *)

(** [l.findIndex(P)]: the index of the first element satisfying [P], or -1. *)
Definition findIndex {A} (P : A → Prop) `{∀ x, Decision (P x)} (l : list A) : Z :=
  match list_find P l with
  | Some (i, _) => Z.of_nat i
  | None => -1
  end.

(** [l[i] = x] on a copy of [l].  Inside the array the element is replaced;
    past the end the array grows, the skipped positions being holes; a
    negative index adds no element. *)
Definition arraySet {A} (hole : A) (i : Z) (x : A) (l : list A) : list A :=
  if bool_decide (i < 0) then l
  else if bool_decide (Z.to_nat i < length l)%nat then <[Z.to_nat i := x]> l
  else l ++ replicate (Z.to_nat i - length l) hole ++ [x].

(** [selectedAnswers[i]] *)
Definition selectedAt (selectedAnswers : list Selected) (i : Z) : Selected :=
  if bool_decide (i < 0) then SUndefined
  else default SUndefined (selectedAnswers !! Z.to_nat i).

(** [s === n] for a number [n]. *)
Definition strictEqNum (s : Selected) (n : Z) : bool :=
  match s with
  | SNum m => bool_decide (m = n)
  | _ => false
  end.

(** [s === null] *)
Definition strictEqNull (s : Selected) : bool :=
  match s with
  | SNull => true
  | _ => false
  end.

(** ** [App.tsx] *)

Definition setNotes (f : list Note.t → list Note.t) : Eff unit :=
  modify (withApp (λ a, App.mk (App.view a) (f (App.notes a)) (App.chatHistory a)
                          (App.quizHistory a) (App.isUploaderOpen a) (App.activeNote a))).
Definition setChatHistory (f : list ChatMessage.t → list ChatMessage.t) : Eff unit :=
  modify (withApp (λ a, App.mk (App.view a) (App.notes a) (f (App.chatHistory a))
                          (App.quizHistory a) (App.isUploaderOpen a) (App.activeNote a))).
Definition setQuizHistory (f : list Quiz.t → list Quiz.t) : Eff unit :=
  modify (withApp (λ a, App.mk (App.view a) (App.notes a) (App.chatHistory a)
                          (f (App.quizHistory a)) (App.isUploaderOpen a) (App.activeNote a))).
Definition setIsUploaderOpen (b : bool) : Eff unit :=
  modify (withApp (λ a, App.mk (App.view a) (App.notes a) (App.chatHistory a)
                          (App.quizHistory a) b (App.activeNote a))).

(** The updater [handleNewChatMessage] passes to [setChatHistory]. *)
Definition upsertMessage (message : ChatMessage.t) (prev : list ChatMessage.t)
  : list ChatMessage.t :=
  let existingIndex :=
    findIndex (λ m, ChatMessage.id m = ChatMessage.id message) prev in
  if bool_decide (existingIndex > -1) then
    let updatedHistory := prev in
    <[Z.to_nat existingIndex := message]> updatedHistory
  else prev ++ [message].

Definition handleNewChatMessage (message : ChatMessage.t) : Eff unit :=
  setChatHistory (upsertMessage message).

Section Handlers.
Context (E : Env).

Definition addNote (title content : jsstring) (type : NoteType) : Eff unit :=
  id ← Date_now E;
  createdAt ← Date_now E;
  let newNote := Note.mk (toISOString id) title content createdAt type in
  setNotes (λ prev, prev ++ [newNote]);;
  setIsUploaderOpen false.

Definition handleQuizComplete (quizId : jsstring) (questions : list Question.t)
    (score : Z) : Eff unit :=
  createdAt ← Date_now E;
  let newQuiz := Quiz.mk quizId questions createdAt (Some score) in
  setQuizHistory (λ prev, newQuiz :: prev).

(** [deleteNote] as a render of [App] makes it: [notes] is the array that
    render read from the state.  The handler gives [setNotes] a value
    computed from that array, not an updater over the state of the moment,
    as [addNote], [handleNewChatMessage] and [handleQuizComplete] do. *)
Definition deleteNote (notes : list Note.t) (noteId : jsstring) : Eff unit :=
  setNotes (λ _, filter (λ note, Note.id note ≠ noteId) notes).

(** ** [ChatView.tsx] *)

Definition setInput (s : jsstring) : Eff unit :=
  modify (withChatView (λ c, ChatView.mk s (ChatView.isLoading c) (ChatView.error c))).
Definition setChatIsLoading (b : bool) : Eff unit :=
  modify (withChatView (λ c, ChatView.mk (ChatView.input c) b (ChatView.error c))).
Definition setChatError (e : option jsstring) : Eff unit :=
  modify (withChatView (λ c, ChatView.mk (ChatView.input c) (ChatView.isLoading c) e)).

(** [for await (const chunk of stream) body], the loop carrying the local
    variable the body assigns. *)
Fixpoint forAwaitChunks {A} (chunks : list GenerateContentResponse.t)
    (body : GenerateContentResponse.t → A → Eff A) (acc : A) : Eff A :=
  match chunks with
  | [] => mret acc
  | chunk :: rest => acc' ← body chunk acc; forAwaitChunks rest body acc'
  end.

Definition forAwait {A} (stream : Stream.t)
    (body : GenerateContentResponse.t → A → Eff A) (acc : A) : Eff A :=
  acc' ← forAwaitChunks (Stream.chunks stream) body acc;
  match Stream.failure stream with
  | Some e => throw e
  | None => mret acc'
  end.

(** [err instanceof Error ? err.message : 'An unknown error occurred'] *)
Definition messageOf (err : Thrown) : jsstring :=
  match err with
  | Error message => message
  | NonError => lit "An unknown error occurred"
  end.

(** [handleSend]; [input], [isLoading], [notes] and [chatHistory] are the
    values of the render the handler was created in. *)
Definition handleSend : Eff unit :=
  w ← get;
  let input := ChatView.input (chatView w) in
  let isLoading := ChatView.isLoading (chatView w) in
  let notes := App.notes (app w) in
  let chatHistory := App.chatHistory (app w) in
  let onNewMessage := handleNewChatMessage in
  if bool_decide (trim input = []) || isLoading then mret tt
  else
    now ← Date_now E;
    let userMessage := ChatMessage.mk (toString now) user input in
    onNewMessage userMessage;;
    setInput [];;
    setChatIsLoading true;;
    setChatError None;;
    let apiHistory :=
      ((λ m, (ChatMessage.role m, ChatMessage.text m)) <$> chatHistory)
      ++ [(user, input)] in
    tryFinally
      (tryCatch
         (stream ← getChatResponseStream E notes apiHistory;
          let modelResponseText := [] in
          now ← Date_now E;
          let modelMessageId := toString (now + 1) in
          let modelMessagePlaceholder :=
            ChatMessage.mk modelMessageId model (lit "...") in
          onNewMessage modelMessagePlaceholder;;
          forAwait stream
            (λ chunk modelResponseText,
               let modelResponseText :=
                 modelResponseText ++ GenerateContentResponse.text chunk in
               onNewMessage (ChatMessage.mk modelMessageId model modelResponseText);;
               mret modelResponseText)
            modelResponseText;;
          mret tt)
         (λ err,
            let errorMessage := messageOf err in
            setChatError (Some errorMessage);;
            now ← Date_now E;
            onNewMessage
              (ChatMessage.mk (toString (now + 1)) model
                 (lit "Error: " ++ errorMessage))))
      (setChatIsLoading false).

(** ** The component [QuizView] *)

Definition setQuestions (qs : list Question.t) : Eff unit :=
  modify (withQuizView (λ q, QuizView.mk qs (QuizView.isLoading q) (QuizView.error q)
    (QuizView.currentQuestionIndex q) (QuizView.selectedAnswers q)
    (QuizView.isFinished q) (QuizView.score q))).
Definition setQuizIsLoading (b : bool) : Eff unit :=
  modify (withQuizView (λ q, QuizView.mk (QuizView.questions q) b (QuizView.error q)
    (QuizView.currentQuestionIndex q) (QuizView.selectedAnswers q)
    (QuizView.isFinished q) (QuizView.score q))).
Definition setQuizError (e : option jsstring) : Eff unit :=
  modify (withQuizView (λ q, QuizView.mk (QuizView.questions q) (QuizView.isLoading q) e
    (QuizView.currentQuestionIndex q) (QuizView.selectedAnswers q)
    (QuizView.isFinished q) (QuizView.score q))).
Definition setCurrentQuestionIndex (i : Z) : Eff unit :=
  modify (withQuizView (λ q, QuizView.mk (QuizView.questions q) (QuizView.isLoading q)
    (QuizView.error q) i (QuizView.selectedAnswers q)
    (QuizView.isFinished q) (QuizView.score q))).
Definition setSelectedAnswers (a : list Selected) : Eff unit :=
  modify (withQuizView (λ q, QuizView.mk (QuizView.questions q) (QuizView.isLoading q)
    (QuizView.error q) (QuizView.currentQuestionIndex q) a
    (QuizView.isFinished q) (QuizView.score q))).
Definition setIsFinished (b : bool) : Eff unit :=
  modify (withQuizView (λ q, QuizView.mk (QuizView.questions q) (QuizView.isLoading q)
    (QuizView.error q) (QuizView.currentQuestionIndex q) (QuizView.selectedAnswers q)
    b (QuizView.score q))).
Definition setScore (s : Z) : Eff unit :=
  modify (withQuizView (λ q, QuizView.mk (QuizView.questions q) (QuizView.isLoading q)
    (QuizView.error q) (QuizView.currentQuestionIndex q) (QuizView.selectedAnswers q)
    (QuizView.isFinished q) s)).

(** [fetchQuiz], given the outcome of [await generateQuizFromNotes(notes)]
    at its declared type [Promise<Question[]>]. *)
Definition fetchQuiz (outcome : Thrown + list Question.t) : Eff unit :=
  setQuizIsLoading true;;
  setQuizError None;;
  tryFinally
    (tryCatch
       (generatedQuestions ← liftResult outcome;
        setQuestions generatedQuestions;;
        setSelectedAnswers (replicate (length generatedQuestions) SNull))
       (λ err, setQuizError (Some (messageOf err))))
    (setQuizIsLoading false).

Definition handleSelectAnswer (optionIndex : Z) : Eff unit :=
  w ← get;
  let q := quizView w in
  if QuizView.isFinished q then mret tt
  else
    let newAnswers := QuizView.selectedAnswers q in
    let newAnswers :=
      arraySet SUndefined (QuizView.currentQuestionIndex q) (SNum optionIndex)
        newAnswers in
    setSelectedAnswers newAnswers.

(** The loop of [handleNext]: [i] runs over [0 .. questions.length - 1]. *)
Definition countCorrect (questions : list Question.t)
    (selectedAnswers : list Selected) : Z :=
  foldl
    (λ finalScore i,
       match questions !! i with
       | Some question =>
           if strictEqNum (selectedAt selectedAnswers (Z.of_nat i))
                (Question.correctAnswerIndex question)
           then finalScore + 1 else finalScore
       | None => finalScore
       end)
    0 (seq 0 (length questions)).

Definition handleNext : Eff unit :=
  w ← get;
  let q := quizView w in
  let questions := QuizView.questions q in
  let currentQuestionIndex := QuizView.currentQuestionIndex q in
  let onQuizComplete := handleQuizComplete in
  if bool_decide (currentQuestionIndex < Z.of_nat (length questions) - 1) then
    setCurrentQuestionIndex (currentQuestionIndex + 1)
  else
    let finalScore := countCorrect questions (QuizView.selectedAnswers q) in
    setScore finalScore;;
    setIsFinished true;;
    now ← Date_now E;
    onQuizComplete (toISOString now) questions finalScore.

(** The [onClick] of the Review Answers button. *)
Definition reviewAnswers : Eff unit :=
  setIsFinished false;;
  setCurrentQuestionIndex 0.

(** What happens to [QuizView] once it is mounted: the user clicks what the
    screen renders, or [App] renders with another [notes] array (a note was
    added from the uploader), at which [useEffect] runs the new [fetchQuiz];
    [outcome] is what [generateQuizFromNotes] then gives. *)
Inductive Action :=
  | ClickOption (index : Z)
  | ClickNext
  | ClickReview
  | NotesChange (outcome : Thrown + list Question.t).

(** The buttons rendered, and enabled, in a state: none while loading or
  on the error screen; Review Answers on the result screen; otherwise, the
  current question being there, one button per option of it, and Next (or
  Finish) unless the current answer is [null].  The Back buttons leave the
  screen and are not among the actions; a change of [notes] is no button. *)
Definition available (q : QuizView.t) (a : Action) : bool :=
  if QuizView.isLoading q then false
  else if bool_decide (is_Some (QuizView.error q)) then false
  else if QuizView.isFinished q then
    match a with ClickReview => true | _ => false end
  else
    match QuizView.questions q !! Z.to_nat (QuizView.currentQuestionIndex q) with
    | Some currentQuestion =>
        match a with
        | ClickOption index =>
            bool_decide (0 ≤ index
                         < Z.of_nat (length (Question.options currentQuestion)))
        | ClickNext =>
            negb (strictEqNull
                    (selectedAt (QuizView.selectedAnswers q)
                       (QuizView.currentQuestionIndex q)))
        | ClickReview => false
        | NotesChange _ => false
        end
    | None => false
    end.

Definition perform (a : Action) : Eff unit :=
  match a with
  | ClickOption index => handleSelectAnswer index
  | ClickNext => handleNext
  | ClickReview => reviewAnswers
  | NotesChange outcome => fetchQuiz outcome
  end.

(** The actions happen in turn; [None] when a click is not on the screen or
    a handler throws.  A change of [notes] happens whatever the screen
    shows; the fetch it starts resets neither the position, nor the score,
    nor [isFinished]. *)
Fixpoint interact (actions : list Action) (w : World) : option World :=
  match actions with
  | [] => Some w
  | a :: rest =>
      if match a with
         | NotesChange _ => true
         | _ => available (quizView w) a
         end
      then
        match perform a w with
        | (inr _, w') => interact rest w'
        | (inl _, _) => None
        end
      else None
  end.

End Handlers.

(** ** Vocabulary of the statements *)

(** The world a handler leaves. *)
Definition exec {A} (m : Eff A) (w : World) : World := (m w).2.

Definition notesOf (w : World) : list Note.t := App.notes (app w).
Definition chatHistoryOf (w : World) : list ChatMessage.t := App.chatHistory (app w).
Definition quizHistoryOf (w : World) : list Quiz.t := App.quizHistory (app w).

(** The calls to the generative-AI service among the events. *)
Definition isServiceCall (ev : Event) : bool :=
  match ev with
  | CallGenerateContent _ | CallGenerateContentStream _ => true
  | ConsoleError _ _ => false
  end.

Definition serviceCalls (events : list Event) : list Event :=
  filter (λ ev, isServiceCall ev = true) events.

Definition isDefined (x : jsval) : bool :=
  match x with
  | Val _ => true
  | Undefined => false
  end.

(** The bounds the specification puts on a question and on a quiz. *)
Definition wellFormedQuestion (q : Question.t) : bool :=
  bool_decide (length (Question.options q) = 4%nat)
  && bool_decide (0 ≤ Question.correctAnswerIndex q
                  < Z.of_nat (length (Question.options q))).

Definition wellFormedQuiz (qs : list Question.t) : bool :=
  bool_decide (length qs = 5%nat) && forallb wellFormedQuestion qs.

(** A value has the shape a schema describes: an object has its required
    properties and its listed properties have their shapes, an array has
    items of the item shape, a string is a string and an integer a number.
    The schema of the source bounds no array length and no number. *)
Fixpoint conforms (schema : Schema) (v : json) {struct schema} : bool :=
  match schema, v with
  | SObject properties required, JObj fields =>
      forallb (λ k, isDefined (lookupField (lit k) fields)) required
      && (fix each (ps : list (string * Schema)) : bool :=
            match ps with
            | [] => true
            | (k, propertySchema) :: ps' =>
                match lookupField (lit k) fields with
                | Val v' => conforms propertySchema v'
                | Undefined => true
                end
                && each ps'
            end) properties
  | SArray _ items, JArr vs => forallb (conforms items) vs
  | SString _, JStr _ => true
  | SPlainString, JStr _ => true
  | SInteger _, JNum _ => true
  | _, _ => false
  end.

(** Operations on the note store, as the user issues them.  A delete is
    issued through a row of the render of the store of the moment, so that
    the [notes] its [deleteNote] filters are the store: the rows on the
    screen are those of the last render as long as no two notes share an id
    (lemma [appInteract_currentRender] below). *)
Inductive NoteOp :=
  | AddNote (title content : jsstring) (type : NoteType)
  | DeleteNote (noteId : jsstring).

Definition applyNoteOp (E : Env) (op : NoteOp) (w : World) : World :=
  match op with
  | AddNote title content type => exec (addNote E title content type) w
  | DeleteNote noteId => exec (deleteNote (notesOf w) noteId) w
  end.

Definition applyNoteOps (E : Env) (ops : list NoteOp) (w : World) : World :=
  foldl (λ w op, applyNoteOp E op w) w ops.

(** Every add draws an id that no note of the store has at that moment. *)
Fixpoint freshAdds (E : Env) (ops : list NoteOp) (w : World) : Prop :=
  match ops with
  | [] => True
  | op :: rest =>
      match op with
      | AddNote _ _ _ => toISOString (clock E (reads w)) ∉ Note.id <$> notesOf w
      | DeleteNote _ => True
      end
      ∧ freshAdds E rest (applyNoteOp E op w)
  end.

#[global] Instance freshAdds_dec E ops w : Decision (freshAdds E ops w).
Proof.
  revert w. induction ops as [|[title content type|noteId] ops IH]; intros w;
    cbn [freshAdds]; apply _.
Defined.

(** The number of questions whose selected answer is the correct one: the
    specification of the score. *)
Definition numberCorrect (questions : list Question.t)
    (selectedAnswers : list Selected) : nat :=
  length
    (filter
       (λ iq : nat * Question.t,
          selectedAt selectedAnswers (Z.of_nat iq.1)
          = SNum (Question.correctAnswerIndex iq.2))
       (imap pair questions)).

(** The user answers every question with its correct option and confirms. *)
Definition answerAllCorrectly (questions : list Question.t) : list Action :=
  questions ≫= λ q, [ClickOption (Question.correctAnswerIndex q); ClickNext].

(** The correct option of a question is one of its options. *)
Definition correctOnScreen (q : Question.t) : Prop :=
  0 ≤ Question.correctAnswerIndex q < Z.of_nat (length (Question.options q)).

(** The fragments of a stream, in emission order. *)
Definition fragments (stream : Stream.t) : list jsstring :=
  GenerateContentResponse.text <$> Stream.chunks stream.

(** The messages of a history that carry a given id. *)
Definition messagesWithId (id : jsstring) (h : list ChatMessage.t)
  : list ChatMessage.t :=
  filter (λ m, ChatMessage.id m = id) h.

(** The request [handleSend] sends from a world. *)
Definition apiHistoryOf (w : World) : list (Role * jsstring) :=
  ((λ m, (ChatMessage.role m, ChatMessage.text m)) <$> chatHistoryOf w)
  ++ [(user, ChatView.input (chatView w))].

Definition chatRequestOf (w : World) : ChatRequest.t :=
  ChatRequest.mk chatModel
    ((λ msg, Content.mk msg.1 [msg.2]) <$> apiHistoryOf w)
    (chatSystemInstruction (allNotesContent (notesOf w))).

(** The history once the loop of [handleSend] has applied the fragments
    [texts] to it under the id [modelMessageId], [acc] being the text
    accumulated before them: one upsert per fragment, each with the text
    accumulated so far. *)
Fixpoint streamed (modelMessageId acc : jsstring) (texts : list jsstring)
    (h : list ChatMessage.t) : list ChatMessage.t :=
  match texts with
  | [] => h
  | t :: rest =>
      streamed modelMessageId (acc ++ t) rest
        (upsertMessage (ChatMessage.mk modelMessageId model (acc ++ t)) h)
  end.

(** The text the streaming message shows after the fragments [texts]. *)
Definition shownText (texts : list jsstring) : jsstring :=
  if bool_decide (texts = []) then lit "..." else concat texts.

(** A world with its chat history replaced. *)
Definition withChatHistory (h : list ChatMessage.t) (w : World) : World :=
  exec (setChatHistory (λ _, h)) w.

(** A recorded quiz whose score lies between 0 and its number of questions. *)
Definition scoreInBounds (quiz : Quiz.t) : Prop :=
  ∃ s, Quiz.score quiz = Some s ∧ 0 ≤ s ≤ Z.of_nat (length (Quiz.questions quiz)).

(** An action of the user, as opposed to a change of [notes]. *)
Definition isClick (a : Action) : bool :=
  match a with
  | NotesChange _ => false
  | _ => true
  end.

(** The application state with one more quiz at the head of the history. *)
Definition recordQuiz (quiz : Quiz.t) (a : App.t) : App.t :=
  App.mk (App.view a) (App.notes a) (App.chatHistory a)
    (quiz :: App.quizHistory a) (App.isUploaderOpen a) (App.activeNote a).

(** ** Sample inputs *)

(** The code unit of the double quote. *)
Definition quote : jsstring := [34%N].

(** A note with title [A] and sixty characters of content, and one with the
    content [hi]. *)
Definition note60 : Note.t :=
  Note.mk (toISOString 0) (lit "A") (replicate 60 120%N) 0 text.
Definition noteHi : Note.t :=
  Note.mk (toISOString 0) (lit "A") (lit "hi") 0 text.

(** [JSON.parse] on one text: the value it denotes; a [SyntaxError] on any
    other text. *)
Definition parseOnly (source : jsstring) (value : json) (s : jsstring)
  : Thrown + json :=
  if bool_decide (s = source) then inr value
  else inl (Error (lit "Unexpected token")).

(** The text [{"questions":[]}] and its value. *)
Definition emptyQuizText : jsstring :=
  lit "{" ++ quote ++ lit "questions" ++ quote ++ lit ":[]}".
Definition emptyQuizValue : json := JObj [(lit "questions", JArr [])].

(** The text
    [{"questions":[{"question":"q?","options":["a","b"],"correctAnswerIndex":7}]}]
    and its value: one question, two options, an index past them. *)
Definition shortQuizText : jsstring :=
  lit "{" ++ quote ++ lit "questions" ++ quote ++ lit ":[{"
  ++ quote ++ lit "question" ++ quote ++ lit ":" ++ quote ++ lit "q?" ++ quote
  ++ lit "," ++ quote ++ lit "options" ++ quote ++ lit ":["
  ++ quote ++ lit "a" ++ quote ++ lit "," ++ quote ++ lit "b" ++ quote ++ lit "],"
  ++ quote ++ lit "correctAnswerIndex" ++ quote ++ lit ":7}]}".
Definition shortQuestionValue : json :=
  JObj [(lit "question", JStr (lit "q?"));
        (lit "options", JArr [JStr (lit "a"); JStr (lit "b")]);
        (lit "correctAnswerIndex", JNum 7)].
Definition shortQuizValue : json :=
  JObj [(lit "questions", JArr [shortQuestionValue])].
Definition shortQuestion : Question.t :=
  Question.mk (lit "q?") [lit "a"; lit "b"] 7.

(** A service answering every quiz request with one text and every chat
    request with one stream, under a given clock. *)
Definition serviceEnv (clock : nat → Z) (quizText : jsstring) (quizValue : json)
    (stream : Stream.t) : Env :=
  {| clock := clock;
     generateContent := λ _, inr (GenerateContentResponse.mk quizText);
     generateContentStream := λ _, inr stream;
     JSON_parse := parseOnly quizText quizValue |}.

(** A clock advancing by one millisecond per reading, and one standing at the
    same millisecond. *)
Definition tickingClock (k : nat) : Z := 1000 + Z.of_nat k.
Definition frozenClock (k : nat) : Z := 1000.

Definition chunksOf (texts : list jsstring) : list GenerateContentResponse.t :=
  GenerateContentResponse.mk <$> texts.

Definition helloStream : Stream.t := Stream.mk (chunksOf [lit "Hel"; lit "lo"]) None.
Definition silentStream : Stream.t := Stream.mk [] None.
Definition brokenStream : Stream.t :=
  Stream.mk (chunksOf [lit "Hel"]) (Some (Error (lit "boom"))).

Definition shortQuizEnv : Env :=
  serviceEnv tickingClock shortQuizText shortQuizValue helloStream.
Definition emptyQuizEnv : Env :=
  serviceEnv tickingClock emptyQuizText emptyQuizValue helloStream.
Definition helloEnv : Env := shortQuizEnv.
Definition silentEnv : Env :=
  serviceEnv tickingClock shortQuizText shortQuizValue silentStream.
Definition brokenEnv : Env :=
  serviceEnv tickingClock shortQuizText shortQuizValue brokenStream.
Definition brokenFrozenEnv : Env :=
  serviceEnv frozenClock shortQuizText shortQuizValue brokenStream.
Definition frozenEnv : Env :=
  serviceEnv frozenClock shortQuizText shortQuizValue helloStream.

(** The chat screen over one note, the user having typed [hi]. *)
Definition chatWorld : World :=
  mkWorld (App.mk chat [note60] [] [] false None)
    (ChatView.mk (lit "hi") false None) QuizView.init [] 0.

(** A question with four options, the second being the correct one. *)
Definition sampleQuestion : Question.t :=
  Question.mk (lit "q?") [lit "a"; lit "b"; lit "c"; lit "d"] 1.

(** A history of two messages, and a store of three notes of which the first
    and the last carry the same id. *)
Definition sampleHistory : list ChatMessage.t :=
  [ChatMessage.mk (lit "m1") user (lit "hi");
   ChatMessage.mk (lit "m2") model (lit "Hel")].
Definition historyWorld : World :=
  mkWorld (App.mk chat [note60] sampleHistory [] false None)
    ChatView.init QuizView.init [] 0.
Definition sampleNotes : list Note.t :=
  [Note.mk (lit "x") (lit "A") (lit "a") 0 text;
   Note.mk (lit "y") (lit "B") (lit "b") 1 text;
   Note.mk (lit "x") (lit "C") (lit "c") 2 image].
(** Two questions answered correctly; then a note is added, the fetch gives
    one question, and the user reviews and answers it wrongly. *)
Definition refetchRun : list Action :=
  [ClickOption 1; ClickNext; ClickOption 1; ClickNext;
   NotesChange (inr [sampleQuestion]);
   ClickReview; ClickOption 0; ClickNext].
Definition twoAdds : list NoteOp :=
  [AddNote (lit "A") (lit "a") text; AddNote (lit "B") (lit "b") text].
Definition sampleOps : list NoteOp :=
  [AddNote (lit "A") (lit "a") text; AddNote (lit "B") (lit "b") text;
   DeleteNote (toISOString 1000); AddNote (lit "C") (lit "c") image].
Definition notesWorld : World :=
  mkWorld (App.mk dashboard sampleNotes [] [] false None)
    ChatView.init QuizView.init [] 0.

(** ** [App.tsx]: the views and what they offer *)

#[global] Instance View_eq_dec : EqDecision View.
Proof. solve_decision. Defined.

#[global] Instance NoteType_eq_dec : EqDecision NoteType.
Proof. solve_decision. Defined.

Definition setView (v : View) : Eff unit :=
  modify (withApp (λ a, App.mk v (App.notes a) (App.chatHistory a)
                          (App.quizHistory a) (App.isUploaderOpen a) (App.activeNote a))).
Definition setActiveNote (n : option Note.t) : Eff unit :=
  modify (withApp (λ a, App.mk (App.view a) (App.notes a) (App.chatHistory a)
                          (App.quizHistory a) (App.isUploaderOpen a) n)).

(** *** The rows of the list of notes

    A row of the list, as a render of [App] makes it: the [note] its body
    opens with [setActiveNote(note)], and the [notes] that render read,
    which the [deleteNote(note.id)] behind its button filters. *)
Record Row := mkRow { rowNote : Note.t; rowNotes : list Note.t }.

(** [key={note.id}] *)
Definition rowKey (r : Row) : jsstring := Note.id (rowNote r).

(** [notes.map(note => <div key={note.id} ...>)] of a render over [notes]. *)
Definition rowsOf (notes : list Note.t) : list Row :=
  (λ note, mkRow note notes) <$> notes.

(** How React carries the children of the list from one render to the next.
    It walks the old and the new children slot by slot for as long as the
    keys agree, and the old child of each such slot becomes the new one. *)
Fixpoint afterCommonPrefix (old : list Row) (new : list Note.t)
  : list Row * list Note.t :=
  match old, new with
  | r :: old', note :: new' =>
      if decide (rowKey r = Note.id note) then afterCommonPrefix old' new'
      else (old, new)
  | _, _ => (old, new)
  end.

(** For what is left, it puts the old children in a map from key to child,
    in their order, so that of the children with one key the last is in the
    map: these are the children the map lost. *)
Fixpoint overwrittenRows (old : list Row) : list Row :=
  match old with
  | [] => []
  | r :: rest =>
      if bool_decide (rowKey r ∈ rowKey <$> rest) then r :: overwrittenRows rest
      else overwrittenRows rest
  end.

(** Every new child then takes the old child of its key from the map or is
    made anew, and the children still in the map are removed.  The old
    children that the map lost are neither taken nor removed: their
    elements stay in the document, with the handlers of the render that
    made them.  When nothing is left of the new children, every old child
    left is removed and none is lost.  Over an empty store the new children
    are the two paragraphs of the empty list, which have no key, so that
    the walk stops at the first row. *)
Definition orphanedRows (old : list Row) (notes : list Note.t) : list Row :=
  match notes with
  | [] => overwrittenRows old
  | _ =>
      match afterCommonPrefix old notes with
      | (_, []) => []
      | (old', _) => overwrittenRows old'
      end
  end.

(** What [App] shows: its state, the rows of the last render and the rows
    that an earlier render made and that are still in the document. *)
Record Screen := mkScreen {
  shown : World;
  liveRows : list Row;
  staleRows : list Row;
}.

Definition screenRows (s : Screen) : list Row := liveRows s ++ staleRows s.

(** The dashboard is what [renderView] returns when no note is open and the
    view is [dashboard]; any other screen takes the list, its rows and the
    rows left in it out of the document. *)
Definition dashboardShown (a : App.t) : bool :=
  negb (bool_decide (is_Some (App.activeNote a)))
  && bool_decide (App.view a = dashboard).

(** The render that follows a change of state. *)
Definition commit (s : Screen) (w' : World) : Screen :=
  if dashboardShown (app w') then
    mkScreen w' (rowsOf (notesOf w'))
      (staleRows s ++ orphanedRows (liveRows s) (notesOf w'))
  else mkScreen w' [] [].

Definition initScreen : Screen := mkScreen initWorld [] [].

(** *** What happens to [App]

    The clicks its own screens offer, and the calls the child components
    make to the callbacks it hands them ([onAddNote] and [onClose] of
    [NoteUploader], [onQuizComplete] of [QuizView], [onNewMessage] of
    [ChatView]).  A row is named by its place among the rows on the screen,
    those of the last render first. *)
Inductive AppAction :=
  | ClickGenerateQuiz
  | ClickChatWithNotes
  | ClickViewHistory
  | ClickBackToDashboard
  | ClickNote (i : nat)
  | ClickBackFromNote
  | ClickDeleteNote (i : nat)
  | ClickAddNote
  | UploaderCloses
  | UploaderAddsNote (title content : jsstring) (type : NoteType)
  | QuizCompletes (quizId : jsstring) (questions : list Question.t) (score : Z)
  | ChatDelivers (message : ChatMessage.t).

(** [renderView], read for what is on the screen and enabled.  An open note
    hides every view; the dashboard cards are disabled on an empty store
    (quiz, chat) or an empty quiz history (history); the rows and their
    delete buttons are on the dashboard; the uploader is there while
    [isUploaderOpen]; the quiz view is there while the view is [quiz]; a
    chat stream delivers its messages whatever is on the screen. *)
Definition appAvailable (s : Screen) (act : AppAction) : bool :=
  let a := app (shown s) in
  let noteOpen := bool_decide (is_Some (App.activeNote a)) in
  match act with
  | ClickGenerateQuiz | ClickChatWithNotes =>
      dashboardShown a && negb (bool_decide (length (App.notes a) = 0%nat))
  | ClickViewHistory =>
      dashboardShown a && negb (bool_decide (length (App.quizHistory a) = 0%nat))
  | ClickBackToDashboard =>
      negb noteOpen && negb (bool_decide (App.view a = dashboard))
  | ClickNote i | ClickDeleteNote i =>
      dashboardShown a && bool_decide (is_Some (screenRows s !! i))
  | ClickBackFromNote => noteOpen
  | ClickAddNote => dashboardShown a
  | UploaderCloses | UploaderAddsNote _ _ _ => App.isUploaderOpen a
  | QuizCompletes _ _ _ => negb noteOpen && bool_decide (App.view a = quiz)
  | ChatDelivers _ => true
  end.

Definition appPerform (E : Env) (s : Screen) (act : AppAction) : Eff unit :=
  match act with
  | ClickGenerateQuiz => setView quiz
  | ClickChatWithNotes => setView chat
  | ClickViewHistory => setView history
  | ClickBackToDashboard => setView dashboard
  | ClickNote i =>
      match screenRows s !! i with
      | Some row => setActiveNote (Some (rowNote row))
      | None => mret tt
      end
  | ClickBackFromNote => setActiveNote None
  | ClickDeleteNote i =>
      match screenRows s !! i with
      | Some row => deleteNote (rowNotes row) (Note.id (rowNote row))
      | None => mret tt
      end
  | ClickAddNote => setIsUploaderOpen true
  | UploaderCloses => setIsUploaderOpen false
  | UploaderAddsNote title content type => addNote E title content type
  | QuizCompletes quizId questions score => handleQuizComplete E quizId questions score
  | ChatDelivers message => handleNewChatMessage message
  end.

(** A handler runs, and [App] renders the state it leaves. *)
Definition appStep (E : Env) (act : AppAction) (s : Screen) : Screen :=
  commit s (exec (appPerform E s act) (shown s)).

(** The actions happen in turn; [None] when one of them is not offered. *)
Fixpoint appInteract (E : Env) (actions : list AppAction) (s : Screen)
  : option Screen :=
  match actions with
  | [] => Some s
  | act :: rest =>
      if appAvailable s act then appInteract E rest (appStep E act s)
      else None
  end.

(** Every note added in the course of the actions draws an id that no note
    of the store has at that moment. *)
Fixpoint appFreshAdds (E : Env) (actions : list AppAction) (s : Screen) : Prop :=
  match actions with
  | [] => True
  | act :: rest =>
      match act with
      | UploaderAddsNote _ _ _ =>
          toISOString (clock E (reads (shown s))) ∉ Note.id <$> notesOf (shown s)
      | _ => True
      end
      ∧ appFreshAdds E rest (appStep E act s)
  end.

#[global] Instance appFreshAdds_dec E actions s : Decision (appFreshAdds E actions s).
Proof.
  revert s. induction actions as [|act actions IH]; intros s;
    cbn [appFreshAdds]; [apply _|].
  destruct act; apply _.
Defined.

(** What holds of [App] in every state it reaches. *)
Definition appInvariant (a : App.t) : Prop :=
  (App.view a = quiz ∨ App.view a = chat → App.notes a ≠ [])
  ∧ (App.view a = history → App.quizHistory a ≠ [])
  ∧ (∀ note, App.activeNote a = Some note → App.view a = dashboard).

(** The screen is that of the last render: no two notes share an id, every
    row is one the last render made, and an open note is in the store. *)
Definition currentRender (s : Screen) : Prop :=
  NoDup (Note.id <$> notesOf (shown s))
  ∧ staleRows s = []
  ∧ liveRows s
    = (if dashboardShown (app (shown s)) then rowsOf (notesOf (shown s)) else [])
  ∧ ∀ note, App.activeNote (app (shown s)) = Some note → note ∈ notesOf (shown s).



(** The part of a world a program of [Eff] reads: its value. *)
Definition evalIn {A} (w : World) (m : Eff A) : Thrown + A := (m w).1.

(** ** The component [QuizView]: the style of an option *)

Definition selectedClass : jsstring := lit "bg-indigo-600 border-indigo-500".
Definition unselectedClass : jsstring :=
  lit "bg-slate-700 border-slate-600 hover:bg-slate-600".
Definition correctClass : jsstring := lit "bg-green-700 border-green-500".
Definition incorrectClass : jsstring := lit "bg-red-700 border-red-500".
Definition neutralClass : jsstring := lit "bg-slate-700 border-slate-600".

(** The [TypeError] raised by a property read on [undefined]. *)
Definition TypeErrorUndefined : Thrown :=
  Error (lit "Cannot read properties of undefined (reading 'correctAnswerIndex')").

Definition getOptionClass (q : QuizView.t) (optionIndex : Z) : Thrown + jsstring :=
  let selectedAnswers := QuizView.selectedAnswers q in
  let currentQuestionIndex := QuizView.currentQuestionIndex q in
  if negb (QuizView.isFinished q) then
    inr (if strictEqNum (selectedAt selectedAnswers currentQuestionIndex) optionIndex
         then selectedClass else unselectedClass)
  else
    match (if bool_decide (currentQuestionIndex < 0) then None
           else QuizView.questions q !! Z.to_nat currentQuestionIndex) with
    | None => inl TypeErrorUndefined
    | Some question =>
        let isCorrect := bool_decide (optionIndex = Question.correctAnswerIndex question) in
        let isSelected :=
          strictEqNum (selectedAt selectedAnswers currentQuestionIndex) optionIndex in
        inr (if isCorrect then correctClass
             else if isSelected && negb isCorrect then incorrectClass
             else neutralClass)
    end.

(** ** [geminiService.ts]: text extraction, and [NoteUploader.tsx] *)

Module File.
Record t := mk {
  name : jsstring;
  type : jsstring;
}.
End File.

#[global] Instance File_eq_dec : EqDecision File.t.
Proof. solve_decision. Defined.

(** A part of the request: the image ([data] is [None] for [undefined]) or
    the instruction. *)
Inductive Part :=
  | InlineData (mimeType : jsstring) (data : option jsstring)
  | TextPart (text : jsstring).

Module VisionRequest.
Record t := mk {
  model : jsstring;
  parts : list Part;
}.
End VisionRequest.

Definition visionModel : jsstring := lit "gemini-2.5-flash".

(** What the uploader obtains from outside. *)
Record UploaderEnv := {
  (** [reader.result] when [onloadend] fires: the data URL of the file, or
      [null] ([None]) after a failed read *)
  readAsDataURL : File.t → option jsstring;
  (** [ai.models.generateContent] on an image request *)
  generateVisionContent : VisionRequest.t → Thrown + GenerateContentResponse.t;
}.

(** The [useState] cells of [NoteUploader]. *)
Module NoteUploader.
Record t := mk {
  uploadType : option NoteType;
  noteTitle : jsstring;
  noteContent : jsstring;
  imageFile : option File.t;
  isLoading : bool;
  error : jsstring;
}.
Definition init : t := mk None [] [] None false [].
End NoteUploader.

(** The uploader over the application: its cells, the image requests it has
    sent (oldest first), and the world of [App]. *)
Record UploaderWorld := mkUploaderWorld {
  form : NoteUploader.t;
  visionCalls : list VisionRequest.t;
  base : World;
}.

(** How an asynchronous function stands: it returned, it threw, or it waits
    on a promise that never settles. *)
Inductive Outcome (A : Type) :=
  | Returned (a : A)
  | Threw (e : Thrown)
  | Pending.
Arguments Returned {A} a.
Arguments Threw {A} e.
Arguments Pending {A}.

Definition Up (A : Type) : Type := UploaderWorld → Outcome A * UploaderWorld.

#[global] Instance Up_ret : MRet Up := λ A a u, (Returned a, u).

#[global] Instance Up_bind : MBind Up := λ A B f m u,
  match m u with
  | (Returned a, u') => f a u'
  | (Threw e, u') => (Threw e, u')
  | (Pending, u') => (Pending, u')
  end.

(** A promise that never settles: nothing after the [await] runs, neither
    [catch] nor [finally]. *)
Definition neverSettles {A} : Up A := λ u, (Pending, u).

Definition tryCatchUp {A} (body : Up A) (handler : Thrown → Up A) : Up A := λ u,
  match body u with
  | (Threw e, u') => handler e u'
  | r => r
  end.

Definition tryFinallyUp {A} (body : Up A) (final : Up unit) : Up A := λ u,
  match body u with
  | (Pending, u') => (Pending, u')
  | (r, u') =>
      match final u' with
      | (Returned _, u'') => (r, u'')
      | (Threw e, u'') => (Threw e, u'')
      | (Pending, u'') => (Pending, u'')
      end
  end.

Definition throwUp {A} (e : Thrown) : Up A := λ u, (Threw e, u).

Definition getUp : Up UploaderWorld := λ u, (Returned u, u).

(** A program of [App] run from the uploader. *)
Definition liftEff {A} (m : Eff A) : Up A := λ u,
  match m (base u) with
  | (inr a, w') => (Returned a, mkUploaderWorld (form u) (visionCalls u) w')
  | (inl e, w') => (Threw e, mkUploaderWorld (form u) (visionCalls u) w')
  end.

Definition withForm (f : NoteUploader.t → NoteUploader.t) : Up unit := λ u,
  (Returned tt, mkUploaderWorld (f (form u)) (visionCalls u) (base u)).

Definition setUploadType (t : option NoteType) : Up unit :=
  withForm (λ f, NoteUploader.mk t (NoteUploader.noteTitle f) (NoteUploader.noteContent f)
                   (NoteUploader.imageFile f) (NoteUploader.isLoading f) (NoteUploader.error f)).
Definition setNoteTitle (s : jsstring) : Up unit :=
  withForm (λ f, NoteUploader.mk (NoteUploader.uploadType f) s (NoteUploader.noteContent f)
                   (NoteUploader.imageFile f) (NoteUploader.isLoading f) (NoteUploader.error f)).
Definition setNoteContent (s : jsstring) : Up unit :=
  withForm (λ f, NoteUploader.mk (NoteUploader.uploadType f) (NoteUploader.noteTitle f) s
                   (NoteUploader.imageFile f) (NoteUploader.isLoading f) (NoteUploader.error f)).
Definition setImageFile (file : option File.t) : Up unit :=
  withForm (λ f, NoteUploader.mk (NoteUploader.uploadType f) (NoteUploader.noteTitle f)
                   (NoteUploader.noteContent f) file (NoteUploader.isLoading f)
                   (NoteUploader.error f)).
Definition setUploaderIsLoading (b : bool) : Up unit :=
  withForm (λ f, NoteUploader.mk (NoteUploader.uploadType f) (NoteUploader.noteTitle f)
                   (NoteUploader.noteContent f) (NoteUploader.imageFile f) b
                   (NoteUploader.error f)).
Definition setUploaderError (s : jsstring) : Up unit :=
  withForm (λ f, NoteUploader.mk (NoteUploader.uploadType f) (NoteUploader.noteTitle f)
                   (NoteUploader.noteContent f) (NoteUploader.imageFile f)
                   (NoteUploader.isLoading f) s).

(** [s.split(sep)] for a separator of one code unit. *)
Fixpoint split (sep : N) (s : jsstring) : list jsstring :=
  match s with
  | [] => [[]]
  | c :: s' =>
      if (c =? sep)%N then [] :: split sep s'
      else match split sep s' with
           | piece :: pieces => (c :: piece) :: pieces
           | [] => [[c]]
           end
  end.

Definition dot : N := 46%N.
Definition comma : N := 44%N.

(** [file.name.split('.').slice(0, -1).join('.') || "Untitled Image"] *)
Definition titleOfFileName (name : jsstring) : jsstring :=
  let pieces := split dot name in
  let stem := join [dot] (take (length pieces - 1) pieces) in
  if bool_decide (stem = []) then lit "Untitled Image" else stem.

Section Uploader.
Context (E : Env) (U : UploaderEnv).

Definition extractionInstruction : jsstring :=
  lit "Extract all text from this image. The text will be used as study notes. Present it in a clean, readable format.".

Definition failedToExtractText : Thrown :=
  Error (lit "Failed to extract text from image using AI.").

Definition ai_models_generateVisionContent (req : VisionRequest.t)
  : Up GenerateContentResponse.t := λ u,
  let u' := mkUploaderWorld (form u) (visionCalls u ++ [req]) (base u) in
  match generateVisionContent U req with
  | inr response => (Returned response, u')
  | inl e => (Threw e, u')
  end.

Definition extractTextFromImage (mimeType : jsstring) (base64Image : option jsstring)
  : Up jsstring :=
  tryCatchUp
    (let imagePart := InlineData mimeType base64Image in
     let textPart := TextPart extractionInstruction in
     response ← ai_models_generateVisionContent
                  (VisionRequest.mk visionModel [imagePart; textPart]);
     mret (GenerateContentResponse.text response))
    (λ error,
       liftEff (console_error (lit "Error extracting text from image:") error);;
       throwUp failedToExtractText).

(** [fileToGenerativePart]: the promise resolves, when the read ends, with
    the piece of [reader.result] after its first comma; on a failed read the
    callback throws on [null] and the promise is left unsettled. *)
Definition fileToGenerativePart (file : File.t) : Up (jsstring * option jsstring) :=
  match readAsDataURL U file with
  | Some result => mret (File.type file, split comma result !! 1%nat)
  | None => neverSettles
  end.

Definition handleImageUpload (file : option File.t) : Up unit :=
  match file with
  | None => mret tt
  | Some file =>
      setUploaderIsLoading true;;
      setUploaderError [];;
      setImageFile (Some file);;
      setNoteTitle (titleOfFileName (File.name file));;
      tryFinallyUp
        (tryCatchUp
           (part ← fileToGenerativePart file;
            let mimeType := part.1 in
            let base64Image := part.2 in
            extractedText ← extractTextFromImage mimeType base64Image;
            setNoteContent extractedText)
           (λ e,
              setUploaderError
                (match e with
                 | Error message => message
                 | NonError => lit "An unknown error occurred."
                 end)))
        (setUploaderIsLoading false)
  end.

(** [handleSubmit].  The form that submits is rendered only once a type is
    chosen, which is what [uploadType!] relies on. *)
Definition handleSubmit : Up unit :=
  u ← getUp;
  let f := form u in
  let noteTitle := NoteUploader.noteTitle f in
  let noteContent := NoteUploader.noteContent f in
  let uploadType := NoteUploader.uploadType f in
  let onAddNote := addNote E in
  if bool_decide (trim noteTitle = []) then
    setUploaderError (lit "Title is required.")
  else if bool_decide (uploadType = Some text) && bool_decide (trim noteContent = []) then
    setUploaderError (lit "Content is required.")
  else if bool_decide (uploadType = Some image) && bool_decide (trim noteContent = []) then
    setUploaderError (lit "Could not extract text from image or image not provided.")
  else
    setUploaderError [];;
    match uploadType with
    | Some type => liftEff (onAddNote noteTitle noteContent type)
    | None => mret tt
    end.

(** What the user can do in the uploader. *)
Inductive UploaderAction :=
  | ChooseType (type : NoteType)
  | TypeTitle (value : jsstring)
  | TypeContent (value : jsstring)
  | SelectFile (file : option File.t)
  | Submit.

(** The controls rendered, and enabled: nothing unless the uploader is open;
    the two type buttons until a type is chosen; then the title input, the
    content area (of a text note always, of an image note once there is
    content and no extraction runs), the file input of an image note, and
    the submit button unless an extraction runs.  The [required] attributes,
    by which the browser refuses a submission with an empty field, are not
    taken into account. *)
Definition uploaderAvailable (u : UploaderWorld) (act : UploaderAction) : bool :=
  let f := form u in
  App.isUploaderOpen (app (base u))
  && match NoteUploader.uploadType f, act with
     | None, ChooseType _ => true
     | None, _ => false
     | Some _, ChooseType _ => false
     | Some _, TypeTitle _ => true
     | Some text, TypeContent _ => true
     | Some image, TypeContent _ =>
         negb (bool_decide (NoteUploader.noteContent f = []))
         && negb (NoteUploader.isLoading f)
     | Some text, SelectFile _ => false
     | Some image, SelectFile _ => true
     | Some _, Submit => negb (NoteUploader.isLoading f)
     end.

Definition uploaderPerform (act : UploaderAction) : Up unit :=
  match act with
  | ChooseType type => setUploadType (Some type)
  | TypeTitle value => setNoteTitle value
  | TypeContent value => setNoteContent value
  | SelectFile file => handleImageUpload file
  | Submit => handleSubmit
  end.

(** The user acts in turn; [None] when an action is not offered.  An
    extraction left pending leaves the state it reached. *)
Fixpoint uploaderInteract (actions : list UploaderAction) (u : UploaderWorld)
  : option UploaderWorld :=
  match actions with
  | [] => Some u
  | act :: rest =>
      if uploaderAvailable u act then uploaderInteract rest (uploaderPerform act u).2
      else None
  end.

End Uploader.

(** The uploader as [App] mounts it. *)
Definition mountUploader (w : World) : UploaderWorld :=
  mkUploaderWorld NoteUploader.init [] w.

(** What holds of the quiz screen over the questions [qs] in every state it
    reaches: the questions stay, the position is within them, there is one
    answer slot per question, a chosen answer is an option of its question,
    and an unanswered question lies at or after the position of a quiz not
    finished. *)
Definition quizInvariant (qs : list Question.t) (q : QuizView.t) : Prop :=
  QuizView.questions q = qs
  ∧ QuizView.isLoading q = false
  ∧ QuizView.error q = None
  ∧ 0 ≤ QuizView.currentQuestionIndex q < Z.of_nat (length qs)
  ∧ length (QuizView.selectedAnswers q) = length qs
  ∧ ∀ i question,
      qs !! i = Some question →
      match QuizView.selectedAnswers q !! i with
      | Some (SNum a) => 0 ≤ a < Z.of_nat (length (Question.options question))
      | Some SNull =>
          QuizView.isFinished q = false
          ∧ QuizView.currentQuestionIndex q ≤ Z.of_nat i
      | _ => False
      end.

(** A note whose title and content both hold something other than white
    space. *)
Definition nonBlankNote (n : Note.t) : Prop :=
  trim (Note.title n) ≠ [] ∧ trim (Note.content n) ≠ [].

(** ** Further sample inputs *)

(** A service that cannot be reached. *)
Definition offlineEnv : Env :=
  {| clock := tickingClock;
     generateContent := λ _, inl (Error (lit "offline"));
     generateContentStream := λ _, inl (Error (lit "offline"));
     JSON_parse := parseOnly shortQuizText shortQuizValue |}.

(** A file whose read gives a data URL, and an uploader environment that
    extracts the text [extracted] from it; one whose service fails; one
    whose read fails. *)
Definition pageFile : File.t := File.mk (lit "page.one.png") (lit "image/png").
Definition pageDataURL : jsstring := lit "data:image/png;base64,QUJD".

Definition readingEnv : UploaderEnv :=
  {| readAsDataURL := λ _, Some pageDataURL;
     generateVisionContent := λ _, inr (GenerateContentResponse.mk (lit "extracted")) |}.
Definition failingVisionEnv : UploaderEnv :=
  {| readAsDataURL := λ _, Some pageDataURL;
     generateVisionContent := λ _, inl (Error (lit "offline")) |}.
Definition twoCommaEnv : UploaderEnv :=
  {| readAsDataURL := λ _, Some (lit "data:a,b,c");
     generateVisionContent := λ _, inr (GenerateContentResponse.mk (lit "extracted")) |}.
Definition unreadableEnv : UploaderEnv :=
  {| readAsDataURL := λ _, None;
     generateVisionContent := λ _, inr (GenerateContentResponse.mk (lit "extracted")) |}.

(** The context blob as the specification words it, the titles and the
    contents of the notes joined, set beside [allNotesContent], which puts
    a label before each title and each content and a rule between notes. *)
Definition titlesAndContents (notes : list Note.t) : jsstring :=
  mjoin ((λ note, Note.title note ++ Note.content note) <$> notes).

(** A note whose title and content make 28 characters. *)
Definition note28 : Note.t :=
  Note.mk (lit "n28") (lit "A") (replicate 27 120%N) 0 text.

(** A clock that shows the same millisecond four readings in a row: the
    first two notes added draw the same id, the third another one. *)
Definition coarseClock (k : nat) : Z := 1000 + Z.of_nat (k / 4).
Definition coarseEnv : Env :=
  serviceEnv coarseClock shortQuizText shortQuizValue helloStream.

Definition firstNote : Note.t :=
  Note.mk (toISOString 1000) (lit "A") (lit "a") 1000 text.
Definition secondNote : Note.t :=
  Note.mk (toISOString 1000) (lit "B") (lit "b") 1000 text.
Definition thirdNote : Note.t :=
  Note.mk (toISOString 1001) (lit "C") (lit "c") 1001 text.
Definition collidingNotes : list Note.t := [firstNote; secondNote; thirdNote].

(** The three notes are added through the uploader; the user deletes the
    first row, and then the row of the third note. *)
Definition collidingRun : list AppAction :=
  [ClickAddNote; UploaderAddsNote (lit "A") (lit "a") text;
   ClickAddNote; UploaderAddsNote (lit "B") (lit "b") text;
   ClickAddNote; UploaderAddsNote (lit "C") (lit "c") text;
   ClickDeleteNote 0; ClickDeleteNote 0].

(** The state this leaves: the dashboard over an empty store. *)
Definition emptiedWorld : World :=
  mkWorld (App.mk dashboard [] [] [] false None) ChatView.init QuizView.init [] 6.

(** The dashboard over one note and one recorded quiz; the user takes a
    quiz, looks at the history, and deletes the note. *)
Definition pastQuiz : Quiz.t := Quiz.mk (lit "q0") [sampleQuestion] 900 (Some 0).
Definition quizzedScreen : Screen :=
  mkScreen
    (mkWorld (App.mk dashboard [note60] [] [pastQuiz] false None)
       ChatView.init QuizView.init [] 0)
    (rowsOf [note60]) [].
Definition quizzedRun : list AppAction :=
  [ClickGenerateQuiz; QuizCompletes (lit "q1") [sampleQuestion] 1;
   ClickBackToDashboard; ClickViewHistory; ClickBackToDashboard;
   ClickDeleteNote 0].

(** The application with the uploader just opened. *)
Definition uploaderOpenWorld : World := exec (setIsUploaderOpen true) initWorld.

(** The uploader of a text note with a title and a content typed in. *)
Definition filledUploader : UploaderWorld :=
  mkUploaderWorld
    (NoteUploader.mk (Some text) (lit " Cells ") (lit "The cell is the unit of life.")
       None false [])
    [] uploaderOpenWorld.

(** The uploader after an image note is chosen, the page selected and read,
    and the form submitted. *)
Definition pageSubmitted : UploaderWorld :=
  (handleSubmit offlineEnv
     (handleImageUpload readingEnv (Some pageFile)
        (setUploadType (Some image) (mountUploader uploaderOpenWorld)).2).2).2.

(** ** The note store *)

Lemma deleteNote_run notes noteId w :
  notesOf (exec (deleteNote notes noteId) w)
  = filter (λ note, Note.id note ≠ noteId) notes.
Proof. reflexivity. Qed.

Lemma addNote_run E title content type w :
  notesOf (exec (addNote E title content type) w)
  = notesOf w
    ++ [Note.mk (toISOString (clock E (reads w))) title content
          (clock E (S (reads w))) type].
Proof. reflexivity. Qed.

Lemma deleteNote_frame notes noteId w :
  chatHistoryOf (exec (deleteNote notes noteId) w) = chatHistoryOf w
  ∧ quizHistoryOf (exec (deleteNote notes noteId) w) = quizHistoryOf w
  ∧ reads (exec (deleteNote notes noteId) w) = reads w
  ∧ log (exec (deleteNote notes noteId) w) = log w.
Proof. done. Qed.

Lemma filter_length_complement {A} (P : A → Prop) `{∀ x, Decision (P x)} (l : list A) :
  (length (filter P l) + length (filter (λ x, ¬ P x) l) = length l)%nat.
Proof.
  induction l as [|x l IH]; [done|].
  rewrite !filter_cons. destruct (decide (P x)) as [HP|HP].
  - rewrite decide_False by tauto. simpl. lia.
  - rewrite decide_True by done. simpl. lia.
Qed.

(** When the handler is the one of the render of the store of the moment,
    [deleteNote] removes exactly the notes carrying the given id: what stays
    is a subsequence of the store, a note stays if and only if its id is
    another one, as many positions disappear as there were notes with the
    id, and a store without the id stays as it is. *)
Lemma deleteNote_of_current_render (noteId : jsstring) (w : World) :
  let notes := notesOf w in
  let notes' := notesOf (exec (deleteNote notes noteId) w) in
  notes' `sublist_of` notes
  ∧ (∀ note, note ∈ notes' ↔ note ∈ notes ∧ Note.id note ≠ noteId)
  ∧ (length notes' + length (filter (λ note, Note.id note = noteId) notes)
     = length notes)%nat
  ∧ ((∀ note, note ∈ notes → Note.id note ≠ noteId) → notes' = notes).
Proof.
  intros notes notes'. subst notes notes'. rewrite deleteNote_run.
  split_and!.
  - apply sublist_filter.
  - intros note. rewrite list_elem_of_filter. tauto.
  - rewrite Nat.add_comm.
    apply (filter_length_complement (λ note, Note.id note = noteId)).
  - intros Hnone. induction (notesOf w) as [|n l IH]; [done|].
    rewrite filter_cons, decide_True by (apply Hnone; left).
    f_equal. apply IH. intros note Hin. apply Hnone. by right.
Qed.

(** C10.  [deleteNote] sets the store to the notes its render read, less
    those with the id, whatever the store holds by then.  A row of an
    earlier render that is still on the screen ([staleRow_on_screen] below
    reaches one) thus brings deleted notes back: over the emptied store,
    where no note has the id, the delete button of the row of the first of
    two notes that shared an id puts the third note back. *)
Theorem deleteNote_restores_the_notes_of_its_render :
  (∀ notes noteId w,
     notesOf (exec (deleteNote notes noteId) w)
     = filter (λ note, Note.id note ≠ noteId) notes)
  ∧ notesOf emptiedWorld = []
  ∧ notesOf (exec (deleteNote collidingNotes (Note.id firstNote)) emptiedWorld)
    = [thirdNote].
Proof. split_and!; [apply deleteNote_run|reflexivity|reflexivity]. Qed.

Lemma applyNoteOp_NoDup E op w :
  NoDup (Note.id <$> notesOf w) →
  match op with
  | AddNote _ _ _ => toISOString (clock E (reads w)) ∉ Note.id <$> notesOf w
  | DeleteNote _ => True
  end →
  NoDup (Note.id <$> notesOf (applyNoteOp E op w)).
Proof.
  intros Hnd Hfresh. destruct op as [title content type|noteId]; simpl.
  - rewrite addNote_run, fmap_app. apply NoDup_app. split_and!; [done| |].
    + intros x Hx ->%list_elem_of_singleton. done.
    + apply NoDup_singleton.
  - rewrite deleteNote_run. eapply sublist_NoDup; [exact Hnd|].
    apply fmap_sublist, sublist_filter.
Qed.

Lemma applyNoteOps_NoDup E ops w :
  NoDup (Note.id <$> notesOf w) → freshAdds E ops w →
  NoDup (Note.id <$> notesOf (applyNoteOps E ops w)).
Proof.
  revert w. induction ops as [|op ops IH]; intros w Hnd Hfresh; [done|].
  destruct Hfresh as [Hop Hrest]. apply IH; [|exact Hrest].
  by apply applyNoteOp_NoDup.
Qed.

(** C8, as amended.  Starting from the empty store, after every sequence of
    add and delete operations in which each add draws a timestamp id that no
    note of the store has at that moment, no two notes of the store have the
    same id. *)
Theorem note_ids_unique_when_fresh (E : Env) (ops : list NoteOp) :
  freshAdds E ops initWorld →
  NoDup (Note.id <$> notesOf (applyNoteOps E ops initWorld)).
Proof. apply applyNoteOps_NoDup. constructor. Qed.

Lemma note_ids_unique_when_fresh_witness :
  NoDup (Note.id <$> notesOf (applyNoteOps helloEnv sampleOps initWorld)).
Proof.
  apply (note_ids_unique_when_fresh helloEnv sampleOps).
  apply (bool_decide_unpack _). vm_compute. exact I.
Defined.

(** C8, as the specification states it, fails when two adds read the clock
    within the same millisecond: both notes get the timestamp as their id. *)
Lemma note_ids_collide_within_a_millisecond :
  Note.id <$> notesOf (applyNoteOps frozenEnv twoAdds initWorld)
  = [toISOString 1000; toISOString 1000]
  ∧ ¬ NoDup (Note.id <$> notesOf (applyNoteOps frozenEnv twoAdds initWorld)).
Proof.
  assert (Note.id <$> notesOf (applyNoteOps frozenEnv twoAdds initWorld)
          = [toISOString 1000; toISOString 1000]) as Hids by reflexivity.
  split; [exact Hids|]. rewrite Hids.
  intros [Hnotin _]%NoDup_cons. apply Hnotin. by left.
Qed.

(** ** The chat history *)

Lemma handleNewChatMessage_run message w :
  chatHistoryOf (exec (handleNewChatMessage message) w)
  = upsertMessage message (chatHistoryOf w).
Proof. reflexivity. Qed.

Section FindIndex.
Context {A : Type} (P : A → Prop) `{∀ x, Decision (P x)}.

Lemma findIndex_absent (l : list A) :
  (∀ x, x ∈ l → ¬ P x) → findIndex P l = -1.
Proof.
  intros Hnone. unfold findIndex.
  destruct (list_find P l) as [[i x]|] eqn:Hfind; [|done].
  apply list_find_Some in Hfind as (Hi & HP & _).
  exfalso. eapply Hnone; [|exact HP]. by eapply list_elem_of_lookup_2.
Qed.

Lemma findIndex_first (l : list A) (i : nat) (x : A) :
  l !! i = Some x → P x →
  (∀ j y, (j < i)%nat → l !! j = Some y → ¬ P y) →
  findIndex P l = Z.of_nat i.
Proof.
  intros Hi HP Hbefore. unfold findIndex.
  assert (list_find P l = Some (i, x)) as ->; [|done].
  apply list_find_Some. split_and!; [done..|].
  intros j y Hj Hlt. by eapply Hbefore.
Qed.

Lemma findIndex_cases (l : list A) :
  (findIndex P l = -1 ∧ ∀ x, x ∈ l → ¬ P x)
  ∨ (∃ i x, findIndex P l = Z.of_nat i ∧ l !! i = Some x ∧ P x).
Proof.
  unfold findIndex. destruct (list_find P l) as [[i x]|] eqn:Hfind.
  - right. exists i, x. apply list_find_Some in Hfind as (Hi & HP & _). done.
  - left. split; [done|]. apply list_find_None in Hfind.
    intros x Hx. by eapply (proj1 (Forall_forall _ _) Hfind).
Qed.

End FindIndex.

Lemma upsertMessage_absent message prev :
  (∀ m, m ∈ prev → ChatMessage.id m ≠ ChatMessage.id message) →
  upsertMessage message prev = prev ++ [message].
Proof.
  intros Hnone. unfold upsertMessage.
  rewrite (findIndex_absent _ prev) by done. done.
Qed.

Lemma upsertMessage_present message prev i m :
  prev !! i = Some m → ChatMessage.id m = ChatMessage.id message →
  (∀ j m', (j < i)%nat → prev !! j = Some m' →
           ChatMessage.id m' ≠ ChatMessage.id message) →
  upsertMessage message prev = <[i := message]> prev.
Proof.
  intros Hi Hid Hbefore. unfold upsertMessage.
  rewrite (findIndex_first _ prev i m) by done.
  rewrite bool_decide_eq_true_2 by lia. by rewrite Nat2Z.id.
Qed.

Lemma upsertMessage_elem message prev : message ∈ upsertMessage message prev.
Proof.
  unfold upsertMessage.
  destruct (findIndex_cases (λ m, ChatMessage.id m = ChatMessage.id message) prev)
    as [[-> _]|(i & x & -> & Hi & _)].
  - rewrite bool_decide_eq_false_2 by lia. apply elem_of_app. right. by left.
  - rewrite bool_decide_eq_true_2 by lia. rewrite Nat2Z.id.
    apply list_elem_of_lookup. exists i. apply list_lookup_insert_eq.
    by eapply lookup_lt_Some.
Qed.

Lemma upsertMessage_ids message prev :
  ChatMessage.id <$> upsertMessage message prev
  = if bool_decide (ChatMessage.id message ∈ ChatMessage.id <$> prev)
    then ChatMessage.id <$> prev
    else (ChatMessage.id <$> prev) ++ [ChatMessage.id message].
Proof.
  unfold upsertMessage.
  destruct (findIndex_cases (λ m, ChatMessage.id m = ChatMessage.id message) prev)
    as [[-> Hnone]|(i & x & -> & Hi & Hx)].
  - rewrite bool_decide_eq_false_2 by lia.
    rewrite bool_decide_eq_false_2.
    + by rewrite fmap_app.
    + intros (m & Hm & Hin)%list_elem_of_fmap. by eapply Hnone.
  - rewrite bool_decide_eq_true_2 by lia. rewrite Nat2Z.id.
    rewrite bool_decide_eq_true_2.
    + rewrite list_fmap_insert. apply list_insert_id.
      by rewrite list_lookup_fmap, Hi, <- Hx.
    + apply list_elem_of_fmap. exists x. split; [done|].
      by eapply list_elem_of_lookup_2.
Qed.

Lemma upsertMessage_NoDup message prev :
  NoDup (ChatMessage.id <$> prev) →
  NoDup (ChatMessage.id <$> upsertMessage message prev).
Proof.
  intros Hnd. rewrite upsertMessage_ids. case_bool_decide as Hin; [done|].
  apply NoDup_app. split_and!; [done| |apply NoDup_singleton].
  intros x Hx ->%list_elem_of_singleton. done.
Qed.

(** Every history [handleNewChatMessage] builds from the empty one has one
    message per id. *)
Lemma chatHistory_ids_unique (messages : list ChatMessage.t) :
  NoDup (ChatMessage.id <$> foldl (λ h m, upsertMessage m h) [] messages).
Proof.
  assert (∀ h, NoDup (ChatMessage.id <$> h) →
               NoDup (ChatMessage.id <$> foldl (λ h m, upsertMessage m h) h messages))
    as Hall; [|apply Hall; constructor].
  induction messages as [|m messages IH]; intros h Hnd; [done|].
  simpl. by apply IH, upsertMessage_NoDup.
Qed.

Lemma upsertMessage_cons_eq message x prev :
  ChatMessage.id x = ChatMessage.id message →
  upsertMessage message (x :: prev) = message :: prev.
Proof.
  intros Hid. unfold upsertMessage, findIndex. cbn [list_find].
  by rewrite decide_True.
Qed.

Lemma upsertMessage_cons_ne message x prev :
  ChatMessage.id x ≠ ChatMessage.id message →
  upsertMessage message (x :: prev) = x :: upsertMessage message prev.
Proof.
  intros Hid. unfold upsertMessage, findIndex. cbn [list_find].
  rewrite decide_False by done.
  destruct (list_find _ prev) as [[i y]|]; cbn.
  - rewrite !bool_decide_eq_true_2 by lia.
    by rewrite !Nat2Z.id.
  - done.
Qed.

(** Among the messages with its id, an upserted message takes the place of
    the first one, or is the only one. *)
Lemma upsertMessage_same_id message prev :
  messagesWithId (ChatMessage.id message) (upsertMessage message prev)
  = message :: tail (messagesWithId (ChatMessage.id message) prev).
Proof.
  unfold messagesWithId. induction prev as [|x prev IH].
  - change (upsertMessage message []) with [message].
    by rewrite filter_cons, decide_True.
  - destruct (decide (ChatMessage.id x = ChatMessage.id message)) as [Hid|Hid].
    + rewrite upsertMessage_cons_eq by done.
      by rewrite !filter_cons, !decide_True.
    + rewrite upsertMessage_cons_ne by done.
      by rewrite !filter_cons, !decide_False.
Qed.

(** The messages with another id are left as they are. *)
Lemma upsertMessage_other_id id message prev :
  ChatMessage.id message ≠ id →
  messagesWithId id (upsertMessage message prev) = messagesWithId id prev.
Proof.
  intros Hne. unfold messagesWithId. induction prev as [|x prev IH].
  - change (upsertMessage message []) with [message].
    by rewrite filter_cons, decide_False.
  - destruct (decide (ChatMessage.id x = ChatMessage.id message)) as [Hid|Hid].
    + rewrite upsertMessage_cons_eq by done.
      rewrite !filter_cons, !decide_False by congruence. done.
    + rewrite upsertMessage_cons_ne by done.
      rewrite !filter_cons, IH. done.
Qed.

(** C4.  [handleNewChatMessage] puts a message whose id is not in the history
    at its end; a message whose id is in the history takes the place of the
    first message with that id, every other position and the length staying
    as they were; so, in a history that holds the id at most once, two
    messages with the same id applied in turn leave exactly one message with
    that id, the second one. *)
Theorem handleNewChatMessage_upsert (message : ChatMessage.t) (w : World) :
  let prev := chatHistoryOf w in
  let next := chatHistoryOf (exec (handleNewChatMessage message) w) in
  ((∀ m, m ∈ prev → ChatMessage.id m ≠ ChatMessage.id message) →
   next = prev ++ [message])
  ∧ (∀ i m,
       prev !! i = Some m → ChatMessage.id m = ChatMessage.id message →
       (∀ j m', (j < i)%nat → prev !! j = Some m' →
                ChatMessage.id m' ≠ ChatMessage.id message) →
       length next = length prev
       ∧ next !! i = Some message
       ∧ ∀ j, j ≠ i → next !! j = prev !! j)
  ∧ (∀ latest,
       ChatMessage.id latest = ChatMessage.id message →
       (length (messagesWithId (ChatMessage.id message) prev) ≤ 1)%nat →
       messagesWithId (ChatMessage.id message)
         (chatHistoryOf
            (exec (handleNewChatMessage latest)
               (exec (handleNewChatMessage message) w)))
       = [latest]).
Proof.
  intros prev next. subst prev next. rewrite !handleNewChatMessage_run.
  split_and!.
  - apply upsertMessage_absent.
  - intros i m Hi Hid Hbefore.
    rewrite (upsertMessage_present message _ i m) by done.
    split_and!.
    + apply length_insert.
    + apply list_lookup_insert_eq. by eapply lookup_lt_Some.
    + intros j Hj. by apply list_lookup_insert_ne.
  - intros latest Hid Hone. rewrite !handleNewChatMessage_run, <- Hid.
    rewrite upsertMessage_same_id, Hid, upsertMessage_same_id. cbn [tail].
    destruct (messagesWithId _ (chatHistoryOf w)) as [|? [|? ?]];
      [done..|simpl in Hone; lia].
Qed.

Lemma handleNewChatMessage_upsert_witness :
  chatHistoryOf
    (exec (handleNewChatMessage (ChatMessage.mk (lit "m3") user (lit "more")))
       historyWorld)
  = sampleHistory ++ [ChatMessage.mk (lit "m3") user (lit "more")]
  ∧ chatHistoryOf
      (exec (handleNewChatMessage (ChatMessage.mk (lit "m2") model (lit "Hello")))
         historyWorld)
    !! 1%nat
    = Some (ChatMessage.mk (lit "m2") model (lit "Hello"))
  ∧ messagesWithId (lit "m2")
      (chatHistoryOf
         (exec (handleNewChatMessage (ChatMessage.mk (lit "m2") model (lit "Hello")))
            (exec (handleNewChatMessage (ChatMessage.mk (lit "m2") model (lit "Hell")))
               historyWorld)))
    = [ChatMessage.mk (lit "m2") model (lit "Hello")].
Proof.
  split_and!.
  - apply (handleNewChatMessage_upsert
             (ChatMessage.mk (lit "m3") user (lit "more")) historyWorld).
    apply Forall_forall. repeat constructor; vm_compute; discriminate.
  - eapply (handleNewChatMessage_upsert
              (ChatMessage.mk (lit "m2") model (lit "Hello")) historyWorld).
    + reflexivity.
    + reflexivity.
    + intros [|j] m' Hj; [|lia]. intros [= <-]. vm_compute. discriminate.
  - apply (handleNewChatMessage_upsert
             (ChatMessage.mk (lit "m2") model (lit "Hell")) historyWorld).
    + reflexivity.
    + vm_compute. lia.
Defined.

(** ** The AI gateway: quiz generation *)

Arguments lit : simpl never.
Arguments trim : simpl never.
Arguments allNotesContent : simpl never.
Arguments quizRequest : simpl never.
Arguments chatSystemInstruction : simpl never.
Arguments toISOString : simpl never.
Arguments toString : simpl never.

Lemma serviceCalls_app l k : serviceCalls (l ++ k) = serviceCalls l ++ serviceCalls k.
Proof. apply filter_app. Qed.

Ltac run_gateway :=
  unfold tryCatch, ai_models_generateContent, ai_models_generateContentStream,
    console_error, emit, modify, liftResult, throw, mbind, mret,
    Eff_bind, Eff_ret;
  cbn [fst snd].

(** C2.  Below fifty trimmed characters of context, [generateQuizFromNotes]
    throws the not-enough-content error and leaves the world, its event log
    included, as it was: no call reaches the service.  From fifty on, the
    calls to the service it adds to the log are exactly one, the quiz
    request over the context. *)
Theorem generateQuiz_minimum_content (E : Env) (notes : list Note.t) (w : World) :
  let blob := allNotesContent notes in
  ((length (trim blob) < 50)%nat →
   generateQuizFromNotes E notes w = (inl notEnoughContent, w))
  ∧ ((50 ≤ length (trim blob))%nat →
     ∃ r w', generateQuizFromNotes E notes w = (r, w')
       ∧ serviceCalls (log w')
         = serviceCalls (log w) ++ [CallGenerateContent (quizRequest blob)]).
Proof.
  intros blob. subst blob. split; intros Hlen; unfold generateQuizFromNotes.
  - rewrite bool_decide_eq_true_2 by lia. done.
  - rewrite bool_decide_eq_false_2 by lia. run_gateway.
    destruct (generateContent E _) as [e|response]; cbn.
    { eexists _, _. split; [reflexivity|]. cbn [log withLog].
      rewrite !serviceCalls_app. cbn. by rewrite app_nil_r. }
    destruct (JSON_parse E _) as [e|result]; cbn.
    { eexists _, _. split; [reflexivity|]. cbn [log withLog].
      rewrite !serviceCalls_app. cbn. by rewrite app_nil_r. }
    destruct (dot_questions result) as [e|questions]; cbn.
    { eexists _, _. split; [reflexivity|]. cbn [log withLog].
      rewrite !serviceCalls_app. cbn. by rewrite app_nil_r. }
    destruct (negb (truthy questions) || strictEqZero (lengthOf questions)); cbn.
    { eexists _, _. split; [reflexivity|]. cbn [log withLog].
      rewrite !serviceCalls_app. cbn. by rewrite app_nil_r. }
    eexists _, _. split; [reflexivity|]. cbn [log withLog].
    by rewrite !serviceCalls_app.
Qed.

Lemma generateQuiz_minimum_content_witness :
  generateQuizFromNotes shortQuizEnv [noteHi] initWorld = (inl notEnoughContent, initWorld)
  ∧ ∃ r w', generateQuizFromNotes shortQuizEnv [note60] initWorld = (r, w')
      ∧ serviceCalls (log w')
        = serviceCalls (log initWorld)
          ++ [CallGenerateContent (quizRequest (allNotesContent [note60]))].
Proof.
  split.
  - apply (generateQuiz_minimum_content shortQuizEnv [noteHi] initWorld).
    vm_compute. lia.
  - apply (generateQuiz_minimum_content shortQuizEnv [note60] initWorld).
    vm_compute. lia.
Defined.

(** C2, as the specification states it, fails: the titles and the contents
    of a store of one note make 28 characters, fewer than 50, and yet the
    request reaches the service, because the labels [Note Title: ] and
    [Content:] and two line ends, 22 characters in all, are part of what is
    measured. *)
Lemma generateQuiz_counts_the_labels :
  length (trim (titlesAndContents [note28])) = 28%nat
  ∧ length (trim (allNotesContent [note28])) = 50%nat
  ∧ ∃ r w',
      generateQuizFromNotes shortQuizEnv [note28] initWorld = (r, w')
      ∧ r ≠ inl notEnoughContent
      ∧ serviceCalls (log w')
        = [CallGenerateContent (quizRequest (allNotesContent [note28]))].
Proof.
  split; [reflexivity|]. split; [reflexivity|].
  destruct (generateQuizFromNotes shortQuizEnv [note28] initWorld) as [r w'] eqn:Hrun.
  exists r, w'. split; [reflexivity|].
  vm_compute in Hrun. injection Hrun as <- <-. split; [discriminate|].
  vm_compute. reflexivity.
Qed.

(** When [generateQuizFromNotes] succeeds, and with what. *)
Lemma generateQuiz_success
    (E : Env) (notes : list Note.t) (w w' : World) (x : jsval) :
  let blob := allNotesContent notes in
  generateQuizFromNotes E notes w = (inr x, w')
  ↔ (50 ≤ length (trim blob))%nat
    ∧ (∃ response result,
         generateContent E (quizRequest blob) = inr response
         ∧ JSON_parse E (GenerateContentResponse.text response) = inr result
         ∧ dot_questions result = inr x)
    ∧ truthy x = true
    ∧ strictEqZero (lengthOf x) = false
    ∧ w' = withLog (λ l, l ++ [CallGenerateContent (quizRequest blob)]) w.
Proof.
  intros blob. subst blob. unfold generateQuizFromNotes. split.
  - case_bool_decide as Hlen; [done|]. run_gateway.
    destruct (generateContent E _) as [e|response]; cbn; [done|].
    destruct (JSON_parse E _) as [e|result] eqn:Hparse; cbn; [done|].
    destruct (dot_questions result) as [e|questions] eqn:Hq; cbn; [done|].
    destruct (truthy questions) eqn:Ht; cbn; [|done].
    destruct (strictEqZero (lengthOf questions)) eqn:Hz; cbn; [done|].
    intros [= <- <-]. split_and!; [lia| |done..].
    exists response, result. done.
  - intros (Hlen & (response & result & Hgen & Hparse & Hq) & Ht & Hz & ->).
    rewrite bool_decide_eq_false_2 by lia. run_gateway.
    rewrite Hgen. cbn. rewrite Hparse. cbn. rewrite Hq. cbn.
    rewrite Ht, Hz. done.
Qed.

(** C1, as amended.  [generateQuizFromNotes] succeeds exactly when the context
    has fifty trimmed characters, the service answers, the answer parses and
    its [questions] property is truthy with a length other than 0; what it
    returns is that property as received, and the one event it adds is the
    request.  Nothing else about the questions is examined: neither their
    number, nor the number of options, nor the range of
    [correctAnswerIndex]. *)
Theorem generateQuiz_returns_questions_as_received
    (E : Env) (notes : list Note.t) (w w' : World) (x : jsval) :
  let blob := allNotesContent notes in
  generateQuizFromNotes E notes w = (inr x, w')
  ↔ (50 ≤ length (trim blob))%nat
    ∧ (∃ response result,
         generateContent E (quizRequest blob) = inr response
         ∧ JSON_parse E (GenerateContentResponse.text response) = inr result
         ∧ dot_questions result = inr x)
    ∧ truthy x = true
    ∧ strictEqZero (lengthOf x) = false
    ∧ w' = withLog (λ l, l ++ [CallGenerateContent (quizRequest blob)]) w.
Proof. apply generateQuiz_success. Qed.

(** A returned array is never the empty one. *)
Lemma generateQuiz_never_empty E notes w w' :
  generateQuizFromNotes E notes w ≠ (inr (Val (JArr [])), w').
Proof.
  intros Hrun. apply generateQuiz_success in Hrun.
  by destruct Hrun as (_ & _ & _ & Hz & _).
Qed.

(** Whatever goes wrong after the length check, the caller sees one and the
    same error. *)
Lemma generateQuiz_failure_message E notes w w' e :
  (50 ≤ length (trim (allNotesContent notes)))%nat →
  generateQuizFromNotes E notes w = (inl e, w') → e = failedToGenerateQuiz.
Proof.
  intros Hlen. unfold generateQuizFromNotes.
  rewrite bool_decide_eq_false_2 by lia. run_gateway.
  destruct (generateContent E _) as [?|response]; cbn; [by intros [= <- _]|].
  destruct (JSON_parse E _) as [?|result]; cbn; [by intros [= <- _]|].
  destruct (dot_questions result) as [?|questions]; cbn; [by intros [= <- _]|].
  destruct (negb (truthy questions) || strictEqZero (lengthOf questions)); cbn;
    [by intros [= <- _]|done].
Qed.

(** C3, at the response [{"questions":[]}].  The gateway does throw
    [aiFailedToGenerate], inside its own [try]: the [catch] logs it and
    throws [failedToGenerateQuiz] in its place, which is the error the caller
    receives. *)
Theorem generateQuiz_empty_result_error :
  ∃ w',
    generateQuizFromNotes emptyQuizEnv [note60] initWorld
    = (inl failedToGenerateQuiz, w')
    ∧ log w'
      = [CallGenerateContent (quizRequest (allNotesContent [note60]));
         ConsoleError (lit "Error generating quiz:") aiFailedToGenerate]
    ∧ failedToGenerateQuiz ≠ aiFailedToGenerate.
Proof. eexists. split_and!; [vm_compute; reflexivity|reflexivity|done]. Qed.

(** C1, as the specification states it, fails at the response
    [{"questions":[{"question":"q?","options":["a","b"],"correctAnswerIndex":7}]}],
    which has the shape [quizSchema] describes: the gateway returns its single
    question, which has two options and the index 7. *)
Lemma generateQuiz_returns_malformed_quiz :
  ∃ w',
    generateQuizFromNotes shortQuizEnv [note60] initWorld
    = (inr (Val (JArr [shortQuestionValue])), w')
    ∧ conforms quizSchema shortQuizValue = true
    ∧ asQuestions (Val (JArr [shortQuestionValue])) = Some [shortQuestion]
    ∧ wellFormedQuiz [shortQuestion] = false
    ∧ length [shortQuestion] ≠ 5%nat
    ∧ length (Question.options shortQuestion) ≠ 4%nat
    ∧ ¬ (0 ≤ Question.correctAnswerIndex shortQuestion
         < Z.of_nat (length (Question.options shortQuestion))).
Proof.
  eexists. split_and!; [vm_compute; reflexivity|reflexivity|reflexivity|reflexivity|..];
    vm_compute; try lia; try discriminate.
  intros [_ H]. discriminate H.
Qed.

(** ** The chat exchange *)

Arguments upsertMessage : simpl never.
Arguments messageOf : simpl never.
Arguments chatRequestOf : simpl never.

Lemma streamed_ids mid acc texts h :
  mid ∈ ChatMessage.id <$> h →
  ChatMessage.id <$> streamed mid acc texts h = ChatMessage.id <$> h.
Proof.
  revert acc h. induction texts as [|t texts IH]; intros acc h Hin; [done|].
  simpl. rewrite IH; rewrite upsertMessage_ids; simpl;
    by rewrite bool_decide_eq_true_2.
Qed.

Lemma streamed_last mid acc texts h :
  texts ≠ [] →
  ChatMessage.mk mid model (acc ++ concat texts) ∈ streamed mid acc texts h.
Proof.
  revert acc h. induction texts as [|t texts IH]; intros acc h Hne; [done|].
  simpl. destruct texts as [|t' texts].
  - simpl. rewrite app_nil_r. apply upsertMessage_elem.
  - rewrite app_assoc. by apply IH.
Qed.

Lemma withChatHistory_twice h h' w :
  withChatHistory h (withChatHistory h' w) = withChatHistory h w.
Proof. reflexivity. Qed.

Lemma withChatHistory_history h w : chatHistoryOf (withChatHistory h w) = h.
Proof. reflexivity. Qed.

Lemma forAwaitChunks_run mid
    (body : GenerateContentResponse.t → jsstring → Eff jsstring) chunks acc w :
  (∀ chunk acc w,
     body chunk acc w
     = (inr (acc ++ GenerateContentResponse.text chunk),
        withChatHistory
          (upsertMessage
             (ChatMessage.mk mid model (acc ++ GenerateContentResponse.text chunk))
             (chatHistoryOf w))
          w)) →
  chunks ≠ [] →
  forAwaitChunks chunks body acc w
  = (inr (acc ++ concat (GenerateContentResponse.text <$> chunks)),
     withChatHistory
       (streamed mid acc (GenerateContentResponse.text <$> chunks) (chatHistoryOf w))
       w).
Proof.
  intros Hbody. revert acc w.
  induction chunks as [|chunk chunks IH]; intros acc w Hne; [done|].
  cbn [forAwaitChunks]. unfold mbind, Eff_bind. rewrite Hbody.
  destruct chunks as [|chunk' chunks].
  - cbn. by rewrite !app_nil_r.
  - rewrite IH by done. rewrite withChatHistory_twice, withChatHistory_history.
    rewrite !fmap_cons. cbn [concat streamed]. by rewrite <- !app_assoc.
Qed.

Ltac run_eff :=
  unfold getChatResponseStream, tryFinally, tryCatch, forAwait,
    ai_models_generateContentStream, console_error, emit, modify, liftResult,
    throw, get, Date_now, mbind, mret, Eff_bind, Eff_ret;
  cbn [fst snd].

Lemma handleSend_history E w stream :
  trim (ChatView.input (chatView w)) ≠ [] →
  ChatView.isLoading (chatView w) = false →
  generateContentStream E (chatRequestOf w) = inr stream →
  let userMessage :=
    ChatMessage.mk (toString (clock E (reads w))) user (ChatView.input (chatView w)) in
  let mid := toString (clock E (S (reads w)) + 1) in
  let h2 :=
    upsertMessage (ChatMessage.mk mid model (lit "..."))
      (upsertMessage userMessage (chatHistoryOf w)) in
  let h3 := streamed mid [] (fragments stream) h2 in
  chatHistoryOf (exec (handleSend E) w)
  = match Stream.failure stream with
    | None => h3
    | Some e =>
        upsertMessage
          (ChatMessage.mk (toString (clock E (S (S (reads w))) + 1)) model
             (lit "Error: " ++ messageOf e))
          h3
    end.
Proof.
  intros Hinput Hloading Hstream userMessage mid h2 h3.
  unfold handleSend, exec. unfold get at 1. unfold mbind at 1, Eff_bind at 1.
  cbn [fst snd]. rewrite Hloading, bool_decide_eq_false_2 by done.
  cbn [orb]. unfold chatRequestOf, apiHistoryOf, chatHistoryOf, notesOf in Hstream.
  unfold handleNewChatMessage, setChatHistory, setInput, setChatIsLoading, setChatError.
  run_eff. rewrite Hstream. cbn [fst snd].
  destruct stream as [chunks failure]. subst h3. unfold fragments.
  cbn [Stream.chunks Stream.failure].
  destruct chunks as [|chunk chunks].
  - cbn [forAwaitChunks]. run_eff. destruct failure; reflexivity.
  - rewrite (forAwaitChunks_run mid); [|intros; reflexivity|done].
    destruct failure; reflexivity.
Qed.

Lemma streamed_shown mid texts h :
  ChatMessage.mk mid model (lit "...") ∈ h →
  ChatMessage.mk mid model (shownText texts) ∈ streamed mid [] texts h.
Proof.
  intros Hin. unfold shownText. case_bool_decide as Hempty.
  - by subst texts.
  - by apply (streamed_last mid []).
Qed.

Lemma streamed_same_id mid acc texts h :
  messagesWithId mid (streamed mid acc texts h)
  = match texts with
    | [] => messagesWithId mid h
    | _ => ChatMessage.mk mid model (acc ++ concat texts)
           :: tail (messagesWithId mid h)
    end.
Proof.
  revert acc h. induction texts as [|t texts IH]; intros acc h; [done|].
  cbn [streamed]. rewrite IH.
  rewrite (upsertMessage_same_id (ChatMessage.mk mid model (acc ++ t))).
  cbn [ChatMessage.id tail]. destruct texts as [|t' texts].
  - simpl. by rewrite app_nil_r.
  - cbn [concat]. by rewrite !app_assoc.
Qed.

(** C5, as amended.  In an exchange whose stream ends cleanly, the history
    holding the model message id at most once beforehand, the history
    afterwards holds exactly one message under that id: a model message whose
    text is the concatenation of the fragments in emission order when the
    stream emitted at least one, and the placeholder [...] when it emitted
    none. *)
Theorem handleSend_streams_concatenation (E : Env) (w : World) (stream : Stream.t) :
  trim (ChatView.input (chatView w)) ≠ [] →
  ChatView.isLoading (chatView w) = false →
  generateContentStream E (chatRequestOf w) = inr stream →
  Stream.failure stream = None →
  let modelMessageId := toString (clock E (S (reads w)) + 1) in
  (length (messagesWithId modelMessageId (chatHistoryOf w)) ≤ 1)%nat →
  messagesWithId modelMessageId (chatHistoryOf (exec (handleSend E) w))
  = [ChatMessage.mk modelMessageId model
       (if bool_decide (fragments stream = []) then lit "..."
        else concat (fragments stream))].
Proof.
  intros Hinput Hloading Hstream Hclean mid Hone.
  rewrite (handleSend_history E w stream) by done. rewrite Hclean.
  rewrite streamed_same_id.
  rewrite (upsertMessage_same_id (ChatMessage.mk mid model (lit "..."))).
  cbn [ChatMessage.id tail].
  assert (tail (messagesWithId mid
                  (upsertMessage
                     (ChatMessage.mk (toString (clock E (reads w))) user
                        (ChatView.input (chatView w)))
                     (chatHistoryOf w)))
          = []) as ->.
  { destruct (decide (toString (clock E (reads w)) = mid)) as [Hid|Hid].
    - rewrite <- Hid.
      rewrite (upsertMessage_same_id
                 (ChatMessage.mk (toString (clock E (reads w))) user _)).
      cbn [ChatMessage.id tail]. rewrite Hid.
      destruct (messagesWithId mid (chatHistoryOf w)) as [|? [|? ?]];
        [done..|simpl in Hone; lia].
    - rewrite upsertMessage_other_id by done.
      destruct (messagesWithId mid (chatHistoryOf w)) as [|? [|? ?]];
        [done..|simpl in Hone; lia]. }
  destruct (fragments stream) as [|t texts]; [done|].
  rewrite bool_decide_eq_false_2 by done. done.
Qed.

Lemma handleSend_streams_concatenation_witness :
  messagesWithId (lit "1002") (chatHistoryOf (exec (handleSend helloEnv) chatWorld))
  = [ChatMessage.mk (lit "1002") model (lit "Hello")].
Proof.
  apply (handleSend_streams_concatenation helloEnv chatWorld helloStream).
  - vm_compute. discriminate.
  - reflexivity.
  - reflexivity.
  - reflexivity.
  - vm_compute. lia.
Defined.

(** C5, as the specification states it, fails on a stream that ends cleanly
    without having emitted a fragment: the visible model message keeps the
    placeholder text, which is not the concatenation of no fragments. *)
Lemma handleSend_silent_stream_keeps_placeholder :
  generateContentStream silentEnv (chatRequestOf chatWorld) = inr silentStream
  ∧ Stream.failure silentStream = None
  ∧ chatHistoryOf (exec (handleSend silentEnv) chatWorld)
    = [ChatMessage.mk (lit "1000") user (lit "hi");
       ChatMessage.mk (lit "1002") model (lit "...")]
  ∧ lit "..." ≠ concat (fragments silentStream).
Proof. split_and!; [reflexivity|reflexivity|vm_compute; reflexivity|discriminate]. Qed.

(** C9, as amended.  When the stream throws after some fragments, and the id
    drawn for the error message is not the id of a message of the history at
    that moment (neither an earlier message's, nor the user message's, nor
    the streaming message's), the history afterwards is the history of that
    moment, in which the streaming message shows the text received so far,
    followed by a model message whose text is [Error: ] and the error's
    message. *)
Theorem handleSend_stream_failure_keeps_partial_text
    (E : Env) (w : World) (stream : Stream.t) (e : Thrown) :
  trim (ChatView.input (chatView w)) ≠ [] →
  ChatView.isLoading (chatView w) = false →
  generateContentStream E (chatRequestOf w) = inr stream →
  Stream.failure stream = Some e →
  let userId := toString (clock E (reads w)) in
  let modelMessageId := toString (clock E (S (reads w)) + 1) in
  let errorId := toString (clock E (S (S (reads w))) + 1) in
  errorId ∉ ChatMessage.id <$> chatHistoryOf w →
  errorId ≠ userId →
  errorId ≠ modelMessageId →
  ∃ before,
    chatHistoryOf (exec (handleSend E) w)
    = before ++ [ChatMessage.mk errorId model (lit "Error: " ++ messageOf e)]
    ∧ ChatMessage.mk modelMessageId model
        (if bool_decide (fragments stream = []) then lit "..."
         else concat (fragments stream))
      ∈ before.
Proof.
  intros Hinput Hloading Hstream Hfail uid mid eid Hold Huser Hmodel.
  rewrite (handleSend_history E w stream) by done. rewrite Hfail.
  eexists. split.
  - apply upsertMessage_absent. intros m Hm Hid.
    assert (eid ∈ ChatMessage.id <$>
              upsertMessage (ChatMessage.mk mid model (lit "..."))
                (upsertMessage
                   (ChatMessage.mk uid user (ChatView.input (chatView w)))
                   (chatHistoryOf w))) as Hin.
    { rewrite <- (streamed_ids mid [] (fragments stream)).
      - apply list_elem_of_fmap. exists m. done.
      - eapply list_elem_of_fmap_2'; [apply upsertMessage_elem|done]. }
    rewrite !upsertMessage_ids in Hin. cbn [ChatMessage.id] in Hin.
    repeat case_bool_decide;
      repeat (apply elem_of_app in Hin as [Hin| ->%list_elem_of_singleton]);
      done.
  - apply (streamed_shown mid), upsertMessage_elem.
Qed.

Lemma handleSend_stream_failure_keeps_partial_text_witness :
  ∃ before,
    chatHistoryOf (exec (handleSend brokenEnv) chatWorld)
    = before ++ [ChatMessage.mk (lit "1003") model (lit "Error: boom")]
    ∧ ChatMessage.mk (lit "1002") model (lit "Hel") ∈ before.
Proof.
  apply (handleSend_stream_failure_keeps_partial_text brokenEnv chatWorld
           brokenStream (Error (lit "boom"))).
  - vm_compute. discriminate.
  - reflexivity.
  - reflexivity.
  - reflexivity.
  - vm_compute. apply not_elem_of_nil.
  - vm_compute. discriminate.
  - vm_compute. discriminate.
Defined.

(** C9, as the specification states it, fails when the clock still shows, at
    the failure, the millisecond at which the streaming message drew its id:
    the error message draws the same id and takes the place of the streaming
    message, whose text [Hel] is gone; no message is added. *)
Lemma handleSend_error_overwrites_partial_text :
  generateContentStream brokenFrozenEnv (chatRequestOf chatWorld) = inr brokenStream
  ∧ fragments brokenStream = [lit "Hel"]
  ∧ Stream.failure brokenStream = Some (Error (lit "boom"))
  ∧ chatHistoryOf (exec (handleSend brokenFrozenEnv) chatWorld)
    = [ChatMessage.mk (lit "1000") user (lit "hi");
       ChatMessage.mk (lit "1001") model (lit "Error: boom")].
Proof. split_and!; [reflexivity|reflexivity|reflexivity|vm_compute; reflexivity]. Qed.

(** ** The quiz *)

Arguments countCorrect : simpl never.
Arguments arraySet : simpl never.
Arguments selectedAt : simpl never.

Lemma foldl_ext_in {A B} (f g : A → B → A) (l : list B) (a : A) :
  (∀ a x, x ∈ l → f a x = g a x) → foldl f a l = foldl g a l.
Proof.
  revert a. induction l as [|x l IH]; intros a Hfg; [done|].
  simpl. rewrite Hfg by left. apply IH. intros a' y Hy. apply Hfg. by right.
Qed.

(** The loop of [handleNext] computes the number of questions answered
    correctly. *)
Lemma countCorrect_numberCorrect questions selectedAnswers :
  countCorrect questions selectedAnswers
  = Z.of_nat (numberCorrect questions selectedAnswers).
Proof.
  unfold countCorrect, numberCorrect.
  induction questions as [|q questions IH] using rev_ind; [done|].
  rewrite length_app, Nat.add_1_r, seq_S, foldl_app. cbn [foldl Nat.add].
  rewrite list_lookup_middle by done.
  rewrite imap_app, filter_app, length_app. cbn [imap filter list_filter].
  rewrite Nat.add_0_r.
  rewrite (foldl_ext_in _
    (λ finalScore i,
       match questions !! i with
       | Some question =>
           if strictEqNum (selectedAt selectedAnswers (Z.of_nat i))
                (Question.correctAnswerIndex question)
           then finalScore + 1 else finalScore
       | None => finalScore
       end)).
  - rewrite IH. unfold strictEqNum. cbn [fst snd].
    destruct (selectedAt selectedAnswers (Z.of_nat (length questions)))
      as [| |n] eqn:Hsel.
    + rewrite decide_False by done. cbn. lia.
    + rewrite decide_False by done. cbn. lia.
    + case_bool_decide as Hn.
      * subst n. rewrite decide_True by done. cbn. lia.
      * rewrite decide_False by congruence. cbn. lia.
  - intros a i [_ Hi]%elem_of_seq. by rewrite lookup_app_l by lia.
Qed.

Lemma numberCorrect_bound questions selectedAnswers :
  (numberCorrect questions selectedAnswers ≤ length questions)%nat.
Proof.
  unfold numberCorrect. etrans; [apply length_filter|]. by rewrite length_imap.
Qed.

Lemma countCorrect_bounds questions selectedAnswers :
  0 ≤ countCorrect questions selectedAnswers ≤ Z.of_nat (length questions).
Proof.
  rewrite countCorrect_numberCorrect.
  pose proof (numberCorrect_bound questions selectedAnswers). lia.
Qed.

Section QuizSteps.
Context (E : Env) (a : App.t) (c : ChatView.t) (l : list Event) (r : nat).
Context (qs : list Question.t) (k : Z) (sel : list Selected) (s : Z).

Lemma interact_option q index rest :
  qs !! Z.to_nat k = Some q →
  0 ≤ index < Z.of_nat (length (Question.options q)) →
  interact E (ClickOption index :: rest)
    (mkWorld a c (QuizView.mk qs false None k sel false s) l r)
  = interact E rest
      (mkWorld a c
         (QuizView.mk qs false None k (arraySet SUndefined k (SNum index) sel) false s)
         l r).
Proof.
  intros Hq Hindex. cbn [interact]. unfold available.
  cbn [QuizView.isLoading QuizView.error QuizView.isFinished QuizView.questions
       QuizView.currentQuestionIndex quizView].
  rewrite bool_decide_eq_false_2 by (by intros [? ?]).
  rewrite Hq, bool_decide_eq_true_2 by done. reflexivity.
Qed.

Lemma interact_next_advance q rest :
  qs !! Z.to_nat k = Some q →
  selectedAt sel k ≠ SNull →
  k < Z.of_nat (length qs) - 1 →
  interact E (ClickNext :: rest)
    (mkWorld a c (QuizView.mk qs false None k sel false s) l r)
  = interact E rest
      (mkWorld a c (QuizView.mk qs false None (k + 1) sel false s) l r).
Proof.
  intros Hq Hsel Hk. cbn [interact]. unfold available.
  cbn [QuizView.isLoading QuizView.error QuizView.isFinished QuizView.questions
       QuizView.currentQuestionIndex QuizView.selectedAnswers quizView].
  rewrite bool_decide_eq_false_2 by (by intros [? ?]). rewrite Hq.
  destruct (selectedAt sel k); [|done|]; cbn [strictEqNull negb perform];
    unfold handleNext, get, mbind, Eff_bind;
    cbn [QuizView.questions QuizView.currentQuestionIndex quizView];
    rewrite bool_decide_eq_true_2 by done; reflexivity.
Qed.

Lemma interact_next_finish q rest :
  qs !! Z.to_nat k = Some q →
  selectedAt sel k ≠ SNull →
  ¬ k < Z.of_nat (length qs) - 1 →
  interact E (ClickNext :: rest)
    (mkWorld a c (QuizView.mk qs false None k sel false s) l r)
  = interact E rest
      (mkWorld
         (recordQuiz
            (Quiz.mk (toISOString (clock E r)) qs (clock E (S r))
               (Some (countCorrect qs sel)))
            a)
         c (QuizView.mk qs false None k sel true (countCorrect qs sel)) l (S (S r))).
Proof.
  intros Hq Hsel Hk. cbn [interact]. unfold available.
  cbn [QuizView.isLoading QuizView.error QuizView.isFinished QuizView.questions
       QuizView.currentQuestionIndex QuizView.selectedAnswers quizView].
  rewrite bool_decide_eq_false_2 by (by intros [? ?]). rewrite Hq.
  destruct (selectedAt sel k); [|done|]; cbn [strictEqNull negb perform];
    unfold handleNext, get, mbind, Eff_bind;
    cbn [QuizView.questions QuizView.currentQuestionIndex quizView];
    rewrite bool_decide_eq_false_2 by done; reflexivity.
Qed.

Lemma interact_review rest :
  interact E (ClickReview :: rest)
    (mkWorld a c (QuizView.mk qs false None k sel true s) l r)
  = interact E rest
      (mkWorld a c (QuizView.mk qs false None 0 sel false s) l r).
Proof. reflexivity. Qed.

End QuizSteps.

Ltac run_quiz :=
  unfold handleSelectAnswer, handleNext, reviewAnswers, handleQuizComplete,
    fetchQuiz, setQuestions, setQuizIsLoading, setQuizError,
    setCurrentQuestionIndex, setSelectedAnswers, setIsFinished, setScore,
    setQuizHistory, tryFinally, tryCatch, modify, liftResult, throw, get,
    Date_now, mbind, mret, Eff_bind, Eff_ret;
  cbn [fst snd quizView app QuizView.questions QuizView.isLoading QuizView.error
       QuizView.currentQuestionIndex QuizView.selectedAnswers
       QuizView.isFinished QuizView.score withQuizView withApp withReads
       App.quizHistory].

Lemma perform_recorded_scoresInBounds E act w r w' :
  perform E act w = (r, w') →
  Forall scoreInBounds (quizHistoryOf w) → Forall scoreInBounds (quizHistoryOf w').
Proof.
  destruct w as [a c [qs ld er k sel fin s] l rd].
  unfold quizHistoryOf. destruct act as [index| | |outcome]; cbn [perform].
  - run_quiz. destruct fin; intros [= <- <-]; done.
  - run_quiz. case_bool_decide; intros [= <- <-] Hh; cbn; [done|].
    constructor; [|done].
    eexists. split; [reflexivity|]. apply countCorrect_bounds.
  - run_quiz. intros [= <- <-]. done.
  - destruct outcome as [e|questions]; run_quiz; intros [= <- <-]; done.
Qed.

Lemma interact_recorded_scoresInBounds E actions w w' :
  interact E actions w = Some w' →
  Forall scoreInBounds (quizHistoryOf w) → Forall scoreInBounds (quizHistoryOf w').
Proof.
  revert w. induction actions as [|act actions IH]; intros w; cbn [interact].
  - by intros [= <-].
  - destruct (match act with
              | NotesChange _ => true
              | _ => available (quizView w) act
              end); [|done].
    destruct (perform E act w) as [[e|[]] w1] eqn:Hact; [done|].
    intros Hrest Hw. eapply IH; [exact Hrest|].
    by eapply perform_recorded_scoresInBounds.
Qed.

Lemma fetchQuiz_quizHistory outcome w :
  quizHistoryOf (exec (fetchQuiz outcome) w) = quizHistoryOf w.
Proof.
  destruct w as [a c q l rd]. unfold exec, quizHistoryOf.
  destruct outcome as [e|questions]; run_quiz; done.
Qed.

(** The state [fetchQuiz] leaves when the gateway resolved with questions. *)
Lemma fetchQuiz_ready questions a c l r :
  exec (fetchQuiz (inr questions)) (mkWorld a c QuizView.init l r)
  = mkWorld a c
      (QuizView.mk questions false None 0 (replicate (length questions) SNull) false 0)
      l r.
Proof. reflexivity. Qed.

Lemma filter_all {A} (P : A → Prop) `{∀ x, Decision (P x)} (l : list A) :
  Forall P l → filter P l = l.
Proof.
  induction 1 as [|x l HP _ IH]; [done|].
  by rewrite filter_cons, decide_True, IH.
Qed.

Lemma numberCorrect_all questions :
  numberCorrect questions (SNum ∘ Question.correctAnswerIndex <$> questions)
  = length questions.
Proof.
  unfold numberCorrect. rewrite filter_all; [apply length_imap|].
  apply Forall_forall. intros [i q] (j & y & [= -> ->] & Hq)%elem_of_lookup_imap.
  cbn [fst snd]. unfold selectedAt. rewrite bool_decide_eq_false_2 by lia.
  by rewrite Nat2Z.id, list_lookup_fmap, Hq.
Qed.

Lemma arraySet_middle (before after : list Selected) old new :
  arraySet SUndefined (Z.of_nat (length before)) new (before ++ old :: after)
  = before ++ new :: after.
Proof.
  unfold arraySet. rewrite bool_decide_eq_false_2 by lia. rewrite Nat2Z.id.
  rewrite bool_decide_eq_true_2 by (rewrite length_app; simpl; lia).
  rewrite <- (Nat.add_0_r (length before)) at 1.
  by rewrite insert_app_r.
Qed.

Lemma selectedAt_middle (before after : list Selected) x :
  selectedAt (before ++ x :: after) (Z.of_nat (length before)) = x.
Proof.
  unfold selectedAt. rewrite bool_decide_eq_false_2 by lia.
  by rewrite Nat2Z.id, list_lookup_middle.
Qed.

Lemma answerAllCorrectly_from E a c l r past todo s :
  todo ≠ [] → Forall correctOnScreen todo →
  interact E (answerAllCorrectly todo)
    (mkWorld a c
       (QuizView.mk (past ++ todo) false None (Z.of_nat (length past))
          ((SNum ∘ Question.correctAnswerIndex <$> past)
           ++ replicate (length todo) SNull)
          false s)
       l r)
  = Some
      (mkWorld
         (recordQuiz
            (Quiz.mk (toISOString (clock E r)) (past ++ todo) (clock E (S r))
               (Some (Z.of_nat (length (past ++ todo)))))
            a)
         c
         (QuizView.mk (past ++ todo) false None
            (Z.of_nat (length (past ++ todo)) - 1)
            (SNum ∘ Question.correctAnswerIndex <$> past ++ todo)
            true (Z.of_nat (length (past ++ todo))))
         l (S (S r))).
Proof.
  revert past. induction todo as [|q todo IH]; intros past Hne Hall; [done|].
  apply Forall_cons in Hall as [Hq Hall].
  unfold answerAllCorrectly. rewrite bind_cons.
  cbn [Datatypes.app replicate Datatypes.length].
  assert ((past ++ q :: todo) !! Z.to_nat (Z.of_nat (length past)) = Some q) as Hlook.
  { by rewrite Nat2Z.id, list_lookup_middle. }
  assert (length (SNum ∘ Question.correctAnswerIndex <$> past) = length past)
    as Hlen by apply length_fmap.
  rewrite (interact_option _ _ _ _ _ _ _ _ _ q) by done.
  rewrite <- Hlen at 2. rewrite arraySet_middle.
  destruct todo as [|q' todo].
  - rewrite (interact_next_finish _ _ _ _ _ _ _ _ _ q); [| done | |].
    + cbn [interact answerAllCorrectly mbind list_bind replicate Datatypes.length].
      assert ((SNum ∘ Question.correctAnswerIndex <$> past)
              ++ [SNum (Question.correctAnswerIndex q)]
              = SNum ∘ Question.correctAnswerIndex <$> past ++ [q]) as ->.
      { by rewrite fmap_app. }
      rewrite countCorrect_numberCorrect, numberCorrect_all.
      do 3 f_equal. rewrite length_app. simpl. lia.
    + rewrite <- Hlen. by rewrite selectedAt_middle.
    + rewrite length_app. simpl. lia.
  - rewrite (interact_next_advance _ _ _ _ _ _ _ _ _ q); [| done | |].
    + assert (past ++ q :: q' :: todo = (past ++ [q]) ++ q' :: todo) as ->.
      { by rewrite <- app_assoc. }
      assert ((SNum ∘ Question.correctAnswerIndex <$> past)
              ++ SNum (Question.correctAnswerIndex q)
                 :: replicate (length (q' :: todo)) SNull
              = (SNum ∘ Question.correctAnswerIndex <$> past ++ [q])
                ++ replicate (length (q' :: todo)) SNull) as ->.
      { by rewrite fmap_app, <- app_assoc. }
      assert (Z.of_nat (length past) + 1 = Z.of_nat (length (past ++ [q]))) as ->.
      { rewrite length_app. simpl. lia. }
      by apply IH.
    + rewrite <- Hlen. by rewrite selectedAt_middle.
    + rewrite length_app. simpl. lia.
Qed.

Lemma handleNext_finish E w :
  ¬ QuizView.currentQuestionIndex (quizView w)
    < Z.of_nat (length (QuizView.questions (quizView w))) - 1 →
  let q := quizView w in
  let finalScore := countCorrect (QuizView.questions q) (QuizView.selectedAnswers q) in
  handleNext E w
  = (inr (),
     mkWorld
       (recordQuiz
          (Quiz.mk (toISOString (clock E (reads w))) (QuizView.questions q)
             (clock E (S (reads w))) (Some finalScore))
          (app w))
       (chatView w)
       (QuizView.mk (QuizView.questions q) (QuizView.isLoading q) (QuizView.error q)
          (QuizView.currentQuestionIndex q) (QuizView.selectedAnswers q) true finalScore)
       (log w) (S (S (reads w)))).
Proof.
  intros Hlast. unfold handleNext, get. unfold mbind at 1, Eff_bind at 1.
  rewrite bool_decide_eq_false_2 by done. reflexivity.
Qed.

(** C6.  When [handleNext] finishes a quiz, the score it shows and records is
    the number of questions whose selected answer is the question's
    [correctAnswerIndex], a number between 0 and the number of questions; in
    every state the quiz screen reaches, through clicks and through fetches
    started by a change of the notes, the score of every recorded quiz lies
    between 0 and the number of its questions; and answering every question
    of a non-empty quiz with its correct option leaves the screen finished
    with the number of questions as the score shown and recorded. *)
Theorem quiz_score_counts_correct_answers (E : Env) :
  (∀ w,
     let q := quizView w in
     let score :=
       Z.of_nat (numberCorrect (QuizView.questions q) (QuizView.selectedAnswers q)) in
     ¬ QuizView.currentQuestionIndex q < Z.of_nat (length (QuizView.questions q)) - 1 →
     QuizView.isFinished (quizView (exec (handleNext E) w)) = true
     ∧ QuizView.score (quizView (exec (handleNext E) w)) = score
     ∧ quizHistoryOf (exec (handleNext E) w)
       = Quiz.mk (toISOString (clock E (reads w))) (QuizView.questions q)
           (clock E (S (reads w))) (Some score)
         :: quizHistoryOf w
     ∧ 0 ≤ score ≤ Z.of_nat (length (QuizView.questions q)))
  ∧ (∀ outcome actions w0 w',
       Forall scoreInBounds (quizHistoryOf w0) →
       interact E actions (exec (fetchQuiz outcome) w0) = Some w' →
       Forall scoreInBounds (quizHistoryOf w'))
  ∧ (∀ questions w0,
       questions ≠ [] →
       Forall correctOnScreen questions →
       quizView w0 = QuizView.init →
       ∃ w',
         interact E (answerAllCorrectly questions)
           (exec (fetchQuiz (inr questions)) w0)
         = Some w'
         ∧ QuizView.isFinished (quizView w') = true
         ∧ QuizView.score (quizView w') = Z.of_nat (length questions)
         ∧ quizHistoryOf w'
           = Quiz.mk (toISOString (clock E (reads w0))) questions
               (clock E (S (reads w0))) (Some (Z.of_nat (length questions)))
             :: quizHistoryOf w0).
Proof.
  split_and!.
  - intros w q score Hlast. subst q score. unfold exec.
    rewrite handleNext_finish by done. cbn [snd quizView].
    rewrite countCorrect_numberCorrect.
    pose proof (numberCorrect_bound (QuizView.questions (quizView w))
                  (QuizView.selectedAnswers (quizView w))).
    split_and!; [done..|lia|lia].
  - intros outcome actions w0 w' Hh Hrun.
    eapply interact_recorded_scoresInBounds; [exact Hrun|].
    by rewrite fetchQuiz_quizHistory.
  - intros questions [a c q l r] Hne Hall. cbn [quizView]. intros ->.
    rewrite fetchQuiz_ready.
    pose proof (answerAllCorrectly_from E a c l r [] questions 0 Hne Hall) as Hrun.
    cbn [Datatypes.app fmap list_fmap Datatypes.length] in Hrun.
    eexists. split; [exact Hrun|]. done.
Qed.

Lemma quiz_score_counts_correct_answers_witness :
  (let w := exec (fetchQuiz (inr [sampleQuestion])) initWorld in
   QuizView.isFinished (quizView (exec (handleNext helloEnv) w)) = true
   ∧ QuizView.score (quizView (exec (handleNext helloEnv) w)) = 0)
  ∧ (∃ w',
       interact helloEnv (answerAllCorrectly (replicate 5 sampleQuestion))
         (exec (fetchQuiz (inr (replicate 5 sampleQuestion))) initWorld)
       = Some w'
       ∧ QuizView.isFinished (quizView w') = true
       ∧ QuizView.score (quizView w') = 5)
  ∧ (∃ w',
       interact helloEnv refetchRun
         (exec (fetchQuiz (inr [sampleQuestion; sampleQuestion])) initWorld)
       = Some w'
       ∧ length (quizHistoryOf w') = 2%nat
       ∧ Forall scoreInBounds (quizHistoryOf w')).
Proof.
  pose proof (quiz_score_counts_correct_answers helloEnv) as (Hscore & Hbounds & Hall).
  split_and!.
  - destruct (Hscore (exec (fetchQuiz (inr [sampleQuestion])) initWorld))
      as (Hfin & Hs & _); [vm_compute; discriminate|].
    split; [exact Hfin|exact Hs].
  - destruct (Hall (replicate 5 sampleQuestion) initWorld)
      as (w' & Hrun & Hfin & Hs & _).
    + discriminate.
    + repeat constructor; vm_compute; discriminate.
    + reflexivity.
    + exists w'. split_and!; [exact Hrun|exact Hfin|exact Hs].
  - destruct (interact helloEnv refetchRun
                (exec (fetchQuiz (inr [sampleQuestion; sampleQuestion])) initWorld))
      as [w'|] eqn:Hrun; [|vm_compute in Hrun; discriminate Hrun].
    exists w'. split; [reflexivity|].
    pose proof (Hbounds (inr [sampleQuestion; sampleQuestion]) refetchRun initWorld w'
                  (Forall_nil_2 _) Hrun) as Hin.
    split; [|exact Hin].
    vm_compute in Hrun. injection Hrun as <-. reflexivity.
Defined.

(** Recorded quizzes stay as they are: a handler of the quiz screen only puts
    a new record in front of the history. *)
Lemma perform_quizHistory_suffix E act w r w' :
  perform E act w = (r, w') → quizHistoryOf w `suffix_of` quizHistoryOf w'.
Proof.
  destruct w as [a c [qs ld er k sel fin s] l rd].
  unfold quizHistoryOf. destruct act as [index| | |outcome]; cbn [perform].
  - run_quiz. destruct fin; by intros [= <- <-].
  - run_quiz. case_bool_decide; intros [= <- <-]; cbn; [done|].
    by apply suffix_cons_r.
  - run_quiz. by intros [= <- <-].
  - destruct outcome as [e|questions]; run_quiz; by intros [= <- <-].
Qed.

(** C7, on a quiz of one question.  The user picks an option, presses
    Finish, presses Review Answers, and presses Finish again: every action is
    on the screen, and the history ends up with two records of the same
    questions, one per Finish. *)
Theorem quiz_finalized_again_after_review (E : Env) :
  ∃ w',
    interact E [ClickOption 1; ClickNext; ClickReview; ClickNext]
      (exec (fetchQuiz (inr [sampleQuestion])) initWorld)
    = Some w'
    ∧ quizHistoryOf w'
      = [Quiz.mk (toISOString (clock E 2)) [sampleQuestion] (clock E 3) (Some 1);
         Quiz.mk (toISOString (clock E 0)) [sampleQuestion] (clock E 1) (Some 1)].
Proof.
  unfold initWorld. rewrite fetchQuiz_ready.
  rewrite (interact_option _ _ _ _ _ _ _ _ _ sampleQuestion);
    [|reflexivity|cbn; lia].
  change (arraySet SUndefined 0 (SNum 1) (replicate (length [sampleQuestion]) SNull))
    with [SNum 1].
  rewrite (interact_next_finish _ _ _ _ _ _ _ _ _ sampleQuestion);
    [|reflexivity|vm_compute; discriminate|cbn; lia].
  rewrite interact_review.
  rewrite (interact_next_finish _ _ _ _ _ _ _ _ _ sampleQuestion);
    [|reflexivity|vm_compute; discriminate|cbn; lia].
  change (countCorrect [sampleQuestion] [SNum 1]) with 1.
  eexists. split; reflexivity.
Qed.

(** ** Further properties: the rows of the dashboard *)

Lemma shown_commit s w' : shown (commit s w') = w'.
Proof. unfold commit. by destruct (dashboardShown _). Qed.

Lemma rowKey_rowsOf notes : rowKey <$> rowsOf notes = Note.id <$> notes.
Proof. unfold rowsOf. by rewrite <- list_fmap_compose. Qed.

Lemma rowsOf_lookup notes i r :
  rowsOf notes !! i = Some r ↔ ∃ note, notes !! i = Some note ∧ r = mkRow note notes.
Proof.
  unfold rowsOf. rewrite list_lookup_fmap.
  destruct (notes !! i) as [note|]; cbn; split.
  - intros [= <-]. by exists note.
  - by intros (? & [= <-] & ->).
  - done.
  - by intros (? & ? & _).
Qed.

Lemma overwrittenRows_lookup old r :
  r ∈ overwrittenRows old →
  ∃ i j r', (i < j)%nat ∧ old !! i = Some r ∧ old !! j = Some r'
            ∧ rowKey r' = rowKey r.
Proof.
  induction old as [|r0 old IH]; cbn [overwrittenRows]; [by intros ?%elem_of_nil|].
  intros Hin.
  assert (r ∈ overwrittenRows old →
          ∃ i j r', (i < j)%nat ∧ (r0 :: old) !! i = Some r
                    ∧ (r0 :: old) !! j = Some r' ∧ rowKey r' = rowKey r) as Hlater.
  { intros (i & j & r' & Hij & Hi & Hj & Hkey)%IH.
    exists (S i), (S j), r'. split_and!; [lia|done..]. }
  case_bool_decide as Hdup; [|by apply Hlater].
  apply elem_of_cons in Hin as [->|Hin]; [|by apply Hlater].
  apply list_elem_of_fmap in Hdup as (r' & Hkey & Hr').
  apply list_elem_of_lookup in Hr' as [j Hj].
  exists 0%nat, (S j), r'. split_and!; [lia|done..].
Qed.

Lemma overwrittenRows_NoDup old :
  NoDup (rowKey <$> old) → overwrittenRows old = [].
Proof.
  induction old as [|r old IH]; [done|].
  rewrite fmap_cons. intros [Hnotin Hnd]%NoDup_cons. cbn [overwrittenRows].
  rewrite bool_decide_eq_false_2 by done. by apply IH.
Qed.

Lemma afterCommonPrefix_suffix old new :
  ∃ past, old = past ++ (afterCommonPrefix old new).1.
Proof.
  revert new. induction old as [|r old IH]; intros new; [by exists []|].
  destruct new as [|note new]; cbn [afterCommonPrefix]; [by exists []|].
  destruct (decide (rowKey r = Note.id note)); [|by exists []].
  destruct (IH new) as [past Hpast]. exists (r :: past). cbn. by f_equal.
Qed.

Lemma orphanedRows_lookup old notes r :
  r ∈ orphanedRows old notes →
  ∃ i j r', (i < j)%nat ∧ old !! i = Some r ∧ old !! j = Some r'
            ∧ rowKey r' = rowKey r.
Proof.
  unfold orphanedRows. destruct notes as [|note notes].
  { apply overwrittenRows_lookup. }
  destruct (afterCommonPrefix_suffix old (note :: notes)) as [past Hpast].
  destruct (afterCommonPrefix old (note :: notes)) as [old' new'].
  cbn [fst] in Hpast. destruct new' as [|? ?]; [by intros ?%elem_of_nil|].
  intros (i & j & r' & Hij & Hi & Hj & Hkey)%overwrittenRows_lookup.
  exists (length past + i)%nat, (length past + j)%nat, r'. subst old.
  rewrite !lookup_app_r by lia.
  replace (length past + i - length past)%nat with i by lia.
  replace (length past + j - length past)%nat with j by lia.
  split_and!; [lia|done..].
Qed.

Lemma orphanedRows_NoDup old notes :
  NoDup (rowKey <$> old) → orphanedRows old notes = [].
Proof.
  intros Hnd. destruct (orphanedRows old notes) as [|r rest] eqn:Horphaned; [done|].
  exfalso.
  destruct (orphanedRows_lookup old notes r) as (i & j & r' & Hij & Hi & Hj & Hkey).
  { rewrite Horphaned. by left. }
  assert (i = j); [|lia].
  eapply NoDup_lookup; [exact Hnd| |]; rewrite list_lookup_fmap.
  - by rewrite Hi.
  - rewrite Hj. cbn. by f_equal.
Qed.

Lemma filter_delete_NoDup {A B} `{EqDecision B} (f : A → B) (l : list A) i x :
  NoDup (f <$> l) → l !! i = Some x →
  filter (λ y, f y ≠ f x) l = delete i l.
Proof.
  revert i. induction l as [|y l IH]; intros i; [done|].
  rewrite fmap_cons. intros [Hnotin Hnd]%NoDup_cons Hi.
  rewrite filter_cons. destruct i as [|i]; cbn in Hi |- *.
  - simplify_eq. rewrite decide_False by (by intros ?).
    apply filter_all, Forall_forall. intros y Hy Heq. apply Hnotin.
    rewrite <- Heq. by apply list_elem_of_fmap_2.
  - rewrite decide_True.
    + f_equal. by apply IH.
    + intros Heq. apply Hnotin. rewrite Heq.
      apply list_elem_of_fmap_2. by eapply list_elem_of_lookup_2.
Qed.



(** The run that leaves a row of an earlier render on the screen.  The
    first two notes share an id; when the first row is deleted the store
    keeps the third note alone, the walk over the children stops at the
    first slot, and of the two rows with the shared key the map holds the
    second: the first row stays.  Over the store [thirdNote] its body opens
    a note that is not in the store; after the third note is deleted too,
    the row is still there over the empty store. *)
Lemma staleRow_on_screen :
  appInteract coarseEnv collidingRun initScreen
  = Some (mkScreen emptiedWorld [] [mkRow firstNote collidingNotes])
  ∧ (∃ s, appInteract coarseEnv (take 7 collidingRun ++ [ClickNote 1]) initScreen
          = Some s
          ∧ App.activeNote (app (shown s)) = Some firstNote
          ∧ notesOf (shown s) = [thirdNote])
  ∧ appAvailable (mkScreen emptiedWorld [] [mkRow firstNote collidingNotes])
      (ClickDeleteNote 0) = true
  ∧ notesOf
      (shown (appStep coarseEnv (ClickDeleteNote 0)
                (mkScreen emptiedWorld [] [mkRow firstNote collidingNotes])))
    = [thirdNote].
Proof.
  split_and!.
  - vm_compute. reflexivity.
  - eexists. split; [vm_compute; reflexivity|]. split; reflexivity.
  - reflexivity.
  - reflexivity.
Qed.



Lemma appStep_currentRender E act s :
  appAvailable s act = true →
  match act with
  | UploaderAddsNote _ _ _ =>
      toISOString (clock E (reads (shown s))) ∉ Note.id <$> notesOf (shown s)
  | _ => True
  end →
  currentRender s → currentRender (appStep E act s).
Proof.
  intros Hav Hfresh (Hnd & Hstale & Hlive & Hopen).
  assert (NoDup (rowKey <$> liveRows s)) as Hkeys.
  { rewrite Hlive. destruct (dashboardShown _); [|constructor].
    by rewrite rowKey_rowsOf. }
  assert (∀ w',
            NoDup (Note.id <$> notesOf w') →
            (∀ note, App.activeNote (app w') = Some note → note ∈ notesOf w') →
            currentRender (commit s w')) as Hcommit.
  { intros w' Hnd' Hopen'. unfold currentRender, commit.
    destruct (dashboardShown (app w')) eqn:Hdash;
      cbn [shown liveRows staleRows]; rewrite Hdash; [|done].
    split_and!; [done| |done|done].
    by rewrite Hstale, orphanedRows_NoDup. }
  unfold appStep. apply Hcommit; clear Hcommit.
  - destruct act; try done; cbn [appPerform].
    + by destruct (screenRows s !! i).
    + unfold screenRows. rewrite Hstale, app_nil_r, Hlive.
      unfold appAvailable in Hav. apply andb_true_iff in Hav as [Hdash _].
      rewrite Hdash.
      destruct (rowsOf (notesOf (shown s)) !! i) as [row|] eqn:Hrow; [|done].
      apply rowsOf_lookup in Hrow as (note & Hnote & ->). cbn [rowNotes rowNote].
      rewrite deleteNote_run. eapply sublist_NoDup; [exact Hnd|].
      apply fmap_sublist, sublist_filter.
    + rewrite addNote_run, fmap_app. apply NoDup_app. split_and!; [done| |].
      * intros x Hx ->%list_elem_of_singleton. done.
      * apply NoDup_singleton.
  - intros note. destruct act; cbn [appPerform]; try (by apply Hopen).
    + unfold screenRows. rewrite Hstale, app_nil_r, Hlive.
      unfold appAvailable in Hav. apply andb_true_iff in Hav as [Hdash _].
      rewrite Hdash.
      destruct (rowsOf (notesOf (shown s)) !! i) as [row|] eqn:Hrow;
        [|by apply Hopen].
      apply rowsOf_lookup in Hrow as (picked & Hpicked & ->).
      intros [= <-]. by eapply list_elem_of_lookup_2.
    + done.
    + unfold appAvailable in Hav. apply andb_true_iff in Hav as [Hdash _].
      unfold dashboardShown in Hdash. apply andb_true_iff in Hdash as [Hclosed _].
      apply negb_true_iff, bool_decide_eq_false_1 in Hclosed.
      destruct (screenRows s !! i); cbn; intros Hnote; exfalso; apply Hclosed;
        by exists note.
    + rewrite addNote_run. intros Hnote. apply elem_of_app. left. by apply Hopen.
Qed.

Lemma appInteract_currentRender E actions s s' :
  appInteract E actions s = Some s' → appFreshAdds E actions s →
  currentRender s → currentRender s'.
Proof.
  revert s. induction actions as [|act actions IH]; intros s;
    cbn [appInteract appFreshAdds].
  - by intros [= <-].
  - destruct (appAvailable s act) eqn:Hav; [|done].
    intros Hrun [Hfresh Hrest] Hinv. eapply IH; [exact Hrun|exact Hrest|].
    by apply appStep_currentRender.
Qed.

Lemma currentRender_initScreen : currentRender initScreen.
Proof. split_and!; [constructor|done|done|done]. Qed.

(** X1.  As long as every note added draws an id that no note of the store
    has, the rows on the screen are those of the last render, one per note
    of the store, and the delete button of the row in place [i] takes the
    note in place [i] out of the store and leaves every other note where it
    was, and the chat and quiz histories as they were. *)
Theorem delete_click_removes_the_note_of_its_row
    (E : Env) (actions : list AppAction) (s : Screen) (i : nat) :
  appInteract E actions initScreen = Some s →
  appFreshAdds E actions initScreen →
  appAvailable s (ClickDeleteNote i) = true →
  let s' := appStep E (ClickDeleteNote i) s in
  screenRows s = rowsOf (notesOf (shown s))
  ∧ is_Some (notesOf (shown s) !! i)
  ∧ notesOf (shown s') = delete i (notesOf (shown s))
  ∧ chatHistoryOf (shown s') = chatHistoryOf (shown s)
  ∧ quizHistoryOf (shown s') = quizHistoryOf (shown s).
Proof.
  intros Hrun Hfresh Hav s'. subst s'.
  destruct (appInteract_currentRender E actions initScreen s Hrun Hfresh
              currentRender_initScreen) as (Hnd & Hstale & Hlive & _).
  unfold appAvailable in Hav. apply andb_true_iff in Hav as [Hdash Hrow].
  apply bool_decide_eq_true_1 in Hrow as [row Hrow].
  assert (screenRows s = rowsOf (notesOf (shown s))) as Hrows.
  { unfold screenRows. by rewrite Hstale, app_nil_r, Hlive, Hdash. }
  unfold appStep. rewrite shown_commit. cbn [appPerform]. rewrite Hrow.
  rewrite Hrows in Hrow. apply rowsOf_lookup in Hrow as (note & Hnote & ->).
  cbn [rowNotes rowNote]. rewrite deleteNote_run.
  split_and!; [done|by exists note| |done|done].
  by apply (filter_delete_NoDup Note.id).
Qed.

Lemma delete_click_removes_the_note_of_its_row_witness :
  ∃ s,
    appInteract helloEnv
      [ClickAddNote; UploaderAddsNote (lit "A") (lit "a") text;
       ClickAddNote; UploaderAddsNote (lit "B") (lit "b") text]
      initScreen
    = Some s
    ∧ length (notesOf (shown s)) = 2%nat
    ∧ notesOf (shown (appStep helloEnv (ClickDeleteNote 0) s))
      = delete 0%nat (notesOf (shown s)).
Proof.
  eexists. split; [vm_compute; reflexivity|]. split; [reflexivity|].
  eapply (delete_click_removes_the_note_of_its_row helloEnv
            [ClickAddNote; UploaderAddsNote (lit "A") (lit "a") text;
             ClickAddNote; UploaderAddsNote (lit "B") (lit "b") text]).
  - vm_compute. reflexivity.
  - apply (bool_decide_unpack _). vm_compute. exact I.
  - reflexivity.
Defined.

(** ** Further properties: the views of [App] *)

Lemma appPerform_invariant E s act :
  appAvailable s act = true → appInvariant (app (shown s)) →
  appInvariant (app (exec (appPerform E s act) (shown s))).
Proof.
  destruct s as [[[view notes chatHistory quizHistory isUploaderOpen activeNote] c q l r]
                   live stale].
  unfold appInvariant, appAvailable, dashboardShown, exec, screenRows.
  cbn [shown liveRows staleRows app App.view App.notes App.quizHistory
       App.activeNote App.isUploaderOpen].
  intros Hav (Hnotes & Hhist & Hdash).
  destruct act; cbn in Hav;
    repeat (apply andb_prop in Hav as [Hav ?]);
    repeat match goal with
           | H : _ && _ = true |- _ => apply andb_prop in H as [? ?]
           end;
    repeat match goal with
           | H : negb _ = true |- _ => apply negb_true_iff in H
           | H : bool_decide _ = true |- _ => apply bool_decide_eq_true_1 in H
           | H : bool_decide _ = false |- _ => apply bool_decide_eq_false_1 in H
           end;
    unfold appPerform, deleteNote, get, mbind, Eff_bind; cbn;
    try (destruct ((live ++ stale) !! i) as [picked|] eqn:Hpick; cbn);
    (split_and!; [intros [?|?]|intros ?|intros note ?]);
    simplify_eq/=;
    try done;
    try (by eauto);
    try (by destruct notes);
    try (by destruct quizHistory);
    try (by exfalso; eauto);
    try (by destruct activeNote as [open|]; [specialize (Hdash open eq_refl)|]).
Qed.

Lemma appInteract_invariant E actions s s' :
  appInteract E actions s = Some s' →
  appInvariant (app (shown s)) → appInvariant (app (shown s')).
Proof.
  revert s. induction actions as [|act actions IH]; intros s; cbn [appInteract].
  - by intros [= <-].
  - destruct (appAvailable s act) eqn:Hav; [|done].
    intros Hrun Hinv. eapply IH; [exact Hrun|].
    unfold appStep. rewrite shown_commit. by apply appPerform_invariant.
Qed.

(** X3.  Whatever happens from the initial state, the quiz and chat views are
    only shown over a non-empty store, the history view only over a
    non-empty quiz history, and a note is only open from the dashboard; as
    long as every note added draws an id that no note of the store has, an
    open note is a note of the store. *)
Theorem app_views_invariant (E : Env) (actions : list AppAction) (s' : Screen) :
  appInteract E actions initScreen = Some s' →
  let a := app (shown s') in
  (App.view a = quiz ∨ App.view a = chat → App.notes a ≠ [])
  ∧ (App.view a = history → App.quizHistory a ≠ [])
  ∧ (∀ note, App.activeNote a = Some note → App.view a = dashboard)
  ∧ (appFreshAdds E actions initScreen →
     ∀ note, App.activeNote a = Some note → note ∈ App.notes a).
Proof.
  intros Hrun a. subst a.
  destruct (appInteract_invariant E actions initScreen s' Hrun)
    as (Hnotes & Hhist & Hdash).
  { unfold appInvariant. cbn. split_and!; [intros [?|?]; done|done|done]. }
  split_and!; [done..|].
  intros Hfresh.
  by destruct (appInteract_currentRender E actions initScreen s' Hrun Hfresh
                 currentRender_initScreen) as (_ & _ & _ & Hopen).
Qed.

Lemma app_views_invariant_witness :
  ∃ s',
    appInteract helloEnv
      [ClickAddNote; UploaderAddsNote (lit "A") (lit "a") text; ClickNote 0]
      initScreen
    = Some s'
    ∧ App.activeNote (app (shown s'))
      = Some (Note.mk (toISOString 1000) (lit "A") (lit "a") 1001 text)
    ∧ App.view (app (shown s')) = dashboard
    ∧ Note.mk (toISOString 1000) (lit "A") (lit "a") 1001 text
      ∈ App.notes (app (shown s')).
Proof.
  eexists. split; [vm_compute; reflexivity|]. split; [reflexivity|].
  destruct (app_views_invariant helloEnv
              [ClickAddNote; UploaderAddsNote (lit "A") (lit "a") text; ClickNote 0]
              _ eq_refl) as (_ & _ & Hdash & Hopen).
  split.
  - by apply (Hdash (Note.mk (toISOString 1000) (lit "A") (lit "a") 1001 text)).
  - apply Hopen; [|reflexivity].
    apply (bool_decide_unpack _). vm_compute. exact I.
Defined.

Lemma appPerform_quizHistory E s act :
  quizHistoryOf (shown s) `suffix_of` quizHistoryOf (exec (appPerform E s act) (shown s)).
Proof.
  destruct s as [[[view notes chatHistory quizHistory isUploaderOpen activeNote] c q l r]
                   live stale].
  unfold quizHistoryOf, exec, screenRows. cbn [shown liveRows staleRows].
  destruct act;
    unfold appPerform, handleQuizComplete, Date_now, get, mbind, Eff_bind; cbn;
    try done.
  - by destruct ((live ++ stale) !! i).
  - by destruct ((live ++ stale) !! i).
  - by apply suffix_cons_r.
Qed.

(** X4.  Nothing that happens in [App] changes or removes a recorded quiz:
    the quiz history of any earlier state is the tail of that of every later
    one. *)
Theorem app_quizHistory_grows (E : Env) (actions : list AppAction) (s s' : Screen) :
  appInteract E actions s = Some s' →
  quizHistoryOf (shown s) `suffix_of` quizHistoryOf (shown s').
Proof.
  revert s. induction actions as [|act actions IH]; intros s; cbn [appInteract].
  - by intros [= <-].
  - destruct (appAvailable s act); [|done]. intros Hrun.
    etrans; [apply (appPerform_quizHistory E s act)|].
    apply IH in Hrun. unfold appStep in Hrun. by rewrite shown_commit in Hrun.
Qed.

Lemma app_quizHistory_grows_witness :
  ∃ s',
    appInteract helloEnv quizzedRun quizzedScreen = Some s'
    ∧ length (quizHistoryOf (shown s')) = 2%nat
    ∧ notesOf (shown s') = []
    ∧ [pastQuiz] `suffix_of` quizHistoryOf (shown s').
Proof.
  eexists. split; [vm_compute; reflexivity|].
  split; [reflexivity|]. split; [reflexivity|].
  apply (app_quizHistory_grows helloEnv quizzedRun quizzedScreen).
  vm_compute. reflexivity.
Defined.

(** ** Further properties: the context blob and the length check *)

Lemma trimStart_app a b :
  trimStart (a ++ b) = if decide (trimStart a = []) then trimStart b else trimStart a ++ b.
Proof.
  induction a as [|c a IH]; [done|].
  cbn [trimStart Datatypes.app]. destruct (isWhiteSpace c); [exact IH|].
  by rewrite decide_False.
Qed.

Lemma trimEnd_app a b :
  trimEnd (a ++ b) = if decide (trimEnd b = []) then trimEnd a else a ++ trimEnd b.
Proof.
  unfold trimEnd. rewrite reverse_app, trimStart_app.
  destruct (decide (trimStart (reverse b) = [])) as [Hb|Hb].
  - rewrite Hb. by rewrite decide_True.
  - rewrite decide_False.
    + by rewrite reverse_app, reverse_involutive.
    + intros Hrev. apply Hb. apply (f_equal reverse) in Hrev.
      by rewrite reverse_involutive in Hrev.
Qed.

(** The text a note contributes to the blob. *)
Lemma allNotesContent_one note :
  allNotesContent [note]
  = lit "Note Title: " ++ Note.title note ++ nl ++ lit "Content:" ++ nl
    ++ Note.content note.
Proof. reflexivity. Qed.

Lemma trim_notePart title content :
  trim (lit "Note Title: " ++ title ++ nl ++ lit "Content:" ++ nl ++ content)
  = (lit "Note Title: " ++ title ++ nl ++ lit "Content:")
    ++ (if decide (trimEnd content = []) then [] else nl ++ trimEnd content).
Proof.
  unfold trim. rewrite trimStart_app.
  rewrite decide_False by (vm_compute; discriminate).
  change (trimStart (lit "Note Title: ")) with (lit "Note Title: ").
  assert (lit "Note Title: " ++ title ++ nl ++ lit "Content:" ++ nl ++ content
          = (lit "Note Title: " ++ title ++ nl) ++ lit "Content:" ++ nl ++ content)
    as -> by (by rewrite <- !app_assoc).
  rewrite trimEnd_app, (trimEnd_app (lit "Content:")), (trimEnd_app nl).
  change (trimEnd nl) with (@nil N).
  change (trimEnd (lit "Content:")) with (lit "Content:").
  assert (lit "Content:" ≠ []) as Hlabel by (vm_compute; discriminate).
  assert (∀ rest, lit "Content:" ++ rest ≠ []) as Hlabel'
    by (intros rest; vm_compute; discriminate).
  repeat case_decide; simplify_eq;
    try (by rewrite ?app_nil_r, <- ?app_assoc);
    try (by exfalso; eauto).
Qed.

Lemma length_trim_notePart title content :
  length (trim (lit "Note Title: " ++ title ++ nl ++ lit "Content:" ++ nl ++ content))
  = (21 + length title
     + (if decide (trimEnd content = []) then 0 else 1 + length (trimEnd content)))%nat.
Proof.
  rewrite trim_notePart, !length_app.
  change (length (lit "Note Title: ")) with 12%nat.
  change (length (lit "Content:")) with 8%nat.
  change (length nl) with 1%nat.
  destruct (decide _); [simpl|rewrite length_app; simpl]; lia.
Qed.

Lemma generateQuiz_enough_content E notes w :
  (50 ≤ length (trim (allNotesContent notes)))%nat →
  ∃ r w', generateQuizFromNotes E notes w = (r, w')
    ∧ serviceCalls (log w')
      = serviceCalls (log w)
        ++ [CallGenerateContent (quizRequest (allNotesContent notes))].
Proof.
  intros Hlen. unfold generateQuizFromNotes.
  rewrite bool_decide_eq_false_2 by lia. run_gateway.
  destruct (generateContent E _) as [e|response]; cbn.
  { eexists _, _. split; [reflexivity|]. cbn [log withLog].
    rewrite !serviceCalls_app. cbn. by rewrite app_nil_r. }
  destruct (JSON_parse E _) as [e|result]; cbn.
  { eexists _, _. split; [reflexivity|]. cbn [log withLog].
    rewrite !serviceCalls_app. cbn. by rewrite app_nil_r. }
  destruct (dot_questions result) as [e|questions]; cbn.
  { eexists _, _. split; [reflexivity|]. cbn [log withLog].
    rewrite !serviceCalls_app. cbn. by rewrite app_nil_r. }
  destruct (negb (truthy questions) || strictEqZero (lengthOf questions)); cbn.
  { eexists _, _. split; [reflexivity|]. cbn [log withLog].
    rewrite !serviceCalls_app. cbn. by rewrite app_nil_r. }
  eexists _, _. split; [reflexivity|]. cbn [log withLog].
  by rewrite !serviceCalls_app.
Qed.

Lemma generateQuiz_rejected_iff E notes w :
  generateQuizFromNotes E notes w = (inl notEnoughContent, w)
  ↔ (length (trim (allNotesContent notes)) < 50)%nat.
Proof.
  split.
  - intros Hrun.
    destruct (decide (length (trim (allNotesContent notes)) < 50)%nat) as [|Hge];
      [done|exfalso].
    destruct (generateQuiz_enough_content E notes w) as (r & w' & Hrun' & Hcalls);
      [lia|].
    rewrite Hrun in Hrun'. injection Hrun' as _ <-.
    apply (f_equal length) in Hcalls. rewrite length_app in Hcalls. simpl in Hcalls.
    lia.
  - intros Hlen. unfold generateQuizFromNotes.
    by rewrite bool_decide_eq_true_2 by lia.
Qed.

(** X5.  For a store of one note the trimmed context has 21 characters of
    labels, the title, and, unless the content is blank, one more character
    and the content without its trailing white space; quiz generation is
    refused for lack of content exactly when this is less than 50. *)
Theorem generateQuiz_one_note_threshold (E : Env) (note : Note.t) (w : World) :
  let measure :=
    (21 + length (Note.title note)
     + (if decide (trimEnd (Note.content note) = []) then 0
        else 1 + length (trimEnd (Note.content note))))%nat in
  length (trim (allNotesContent [note])) = measure
  ∧ (generateQuizFromNotes E [note] w = (inl notEnoughContent, w)
     ↔ (measure < 50)%nat).
Proof.
  intros measure. subst measure.
  rewrite <- length_trim_notePart, <- allNotesContent_one.
  split; [done|]. apply generateQuiz_rejected_iff.
Qed.

Lemma trimEnd_notePart_length title content :
  (21 ≤ length (trimEnd (lit "Note Title: " ++ title ++ nl ++ lit "Content:"
                          ++ nl ++ content)))%nat.
Proof.
  pose proof (length_trim_notePart title content) as Hlen.
  unfold trim in Hlen. rewrite trimStart_app in Hlen.
  rewrite decide_False in Hlen by (vm_compute; discriminate).
  change (trimStart (lit "Note Title: ")) with (lit "Note Title: ") in Hlen. lia.
Qed.

Lemma join_cons_cons sep p q parts :
  join sep (p :: q :: parts) = p ++ sep ++ join sep (q :: parts).
Proof. reflexivity. Qed.

Lemma trimEnd_join_length sep parts :
  parts ≠ [] →
  Forall (λ p, 21 ≤ length (trimEnd p))%nat parts →
  (21 ≤ length (trimEnd (join sep parts)))%nat.
Proof.
  induction parts as [|p [|q parts] IH]; intros Hne Hall; [done| |].
  - by apply Forall_cons in Hall as [? _].
  - apply Forall_cons in Hall as [_ Hall]. specialize (IH ltac:(done) Hall).
    rewrite join_cons_cons, trimEnd_app, (trimEnd_app sep).
    rewrite (decide_False (P := trimEnd (join sep (q :: parts)) = []))
      by (intros Hnil; rewrite Hnil in IH; simpl in IH; lia).
    rewrite decide_False
      by (intros [_ Hnil]%app_eq_nil; rewrite Hnil in IH; simpl in IH; lia).
    rewrite !length_app. lia.
Qed.

(** X6.  On an empty store quiz generation is always refused for lack of
    content; on a store of two or more notes it never is, whatever the notes
    hold: the labels and the separator alone make 50 trimmed characters, and
    the request reaches the service. *)
Theorem generateQuiz_threshold_by_store_size (E : Env) (notes : list Note.t) (w : World) :
  (notes = [] → generateQuizFromNotes E notes w = (inl notEnoughContent, w))
  ∧ ((2 ≤ length notes)%nat →
     (50 ≤ length (trim (allNotesContent notes)))%nat
     ∧ ∃ r w', generateQuizFromNotes E notes w = (r, w')
         ∧ serviceCalls (log w')
           = serviceCalls (log w)
             ++ [CallGenerateContent (quizRequest (allNotesContent notes))]).
Proof.
  split.
  - intros ->. apply generateQuiz_rejected_iff. vm_compute. lia.
  - intros Htwo.
    assert (50 ≤ length (trim (allNotesContent notes)))%nat as Hlen.
    { destruct notes as [|n1 [|n2 rest]]; [simpl in Htwo; lia..|].
      unfold allNotesContent. rewrite !fmap_cons, join_cons_cons.
      set (sep := nl ++ nl ++ lit "---" ++ nl ++ nl).
      set (tail := join sep _).
      assert (21 ≤ length (trimEnd tail))%nat as Htail.
      { apply trimEnd_join_length; [done|]. apply Forall_cons. split.
        - apply trimEnd_notePart_length.
        - apply Forall_fmap, Forall_forall. intros note _.
          apply trimEnd_notePart_length. }
      unfold trim. rewrite <- !app_assoc, trimStart_app.
      rewrite decide_False by (vm_compute; discriminate).
      change (trimStart (lit "Note Title: ")) with (lit "Note Title: ").
      rewrite !app_assoc, trimEnd_app, <- !app_assoc.
      rewrite (decide_False (P := trimEnd tail = []))
        by (intros Hnil; rewrite Hnil in Htail; simpl in Htail; lia).
      rewrite !length_app.
      change (length (lit "Note Title: ")) with 12%nat.
      change (length (lit "Content:")) with 8%nat.
      change (length nl) with 1%nat.
      change (length sep) with 7%nat. lia. }
    split; [exact Hlen|]. by apply generateQuiz_enough_content.
Qed.

Lemma generateQuiz_threshold_by_store_size_witness :
  generateQuizFromNotes helloEnv [] initWorld = (inl notEnoughContent, initWorld)
  ∧ (50 ≤ length (trim (allNotesContent
                          [Note.mk [] [] [] 0 text; Note.mk [] [] [] 0 text])))%nat.
Proof.
  split.
  - by apply (generateQuiz_threshold_by_store_size helloEnv [] initWorld).
  - apply (generateQuiz_threshold_by_store_size helloEnv
             [Note.mk [] [] [] 0 text; Note.mk [] [] [] 0 text] initWorld).
    simpl. lia.
Defined.

Lemma generateQuiz_failures_are_wrapped_full
    (E : Env) (notes : list Note.t) (w w' : World) (e : Thrown) :
  (50 ≤ length (trim (allNotesContent notes)))%nat →
  generateQuizFromNotes E notes w = (inl e, w') →
  let request := quizRequest (allNotesContent notes) in
  e = failedToGenerateQuiz
  ∧ ∃ cause,
      log w'
      = log w
        ++ [CallGenerateContent request;
            ConsoleError (lit "Error generating quiz:") cause]
      ∧ match generateContent E request with
        | inl thrown => cause = thrown
        | inr response =>
            match JSON_parse E (GenerateContentResponse.text response) with
            | inl thrown => cause = thrown
            | inr result =>
                match dot_questions result with
                | inl thrown => cause = thrown
                | inr questions => cause = aiFailedToGenerate
                end
            end
        end.
Proof.
  intros Hlen. unfold generateQuizFromNotes.
  rewrite bool_decide_eq_false_2 by lia. run_gateway.
  destruct (generateContent E _) as [cause|response]; cbn.
  { intros [= <- <-]. split; [done|]. exists cause. cbn. by rewrite <- app_assoc. }
  destruct (JSON_parse E _) as [cause|result]; cbn.
  { intros [= <- <-]. split; [done|]. exists cause. cbn. by rewrite <- app_assoc. }
  destruct (dot_questions result) as [cause|questions]; cbn.
  { intros [= <- <-]. split; [done|]. exists cause. cbn. by rewrite <- app_assoc. }
  destruct (negb (truthy questions) || strictEqZero (lengthOf questions)); cbn;
    [|done].
  intros [= <- <-]. split; [done|]. exists aiFailedToGenerate. cbn.
  by rewrite <- app_assoc.
Qed.

Lemma generateQuiz_failures_are_wrapped_helper E notes w w' e :
  (50 ≤ length (trim (allNotesContent notes)))%nat →
  generateQuizFromNotes E notes w = (inl e, w') → e = failedToGenerateQuiz.
Proof.
  intros Hlen Hrun.
  by destruct (generateQuiz_failures_are_wrapped_full E notes w w' e Hlen Hrun).
Qed.

(** X7.  Once the length check is passed, whatever fails, the caller gets
    the one error [failedToGenerateQuiz], and the log holds the request
    followed by the [console.error] of the cause: what the call threw; or,
    the call having answered, what [JSON.parse] threw; or, the answer
    parsed, what the reading of [questions] threw; or else the error of the
    empty-result check. *)
Theorem generateQuiz_failures_are_wrapped
    (E : Env) (notes : list Note.t) (w w' : World) (e : Thrown) :
  (50 ≤ length (trim (allNotesContent notes)))%nat →
  generateQuizFromNotes E notes w = (inl e, w') →
  let request := quizRequest (allNotesContent notes) in
  e = failedToGenerateQuiz
  ∧ ∃ cause,
      log w'
      = log w
        ++ [CallGenerateContent request;
            ConsoleError (lit "Error generating quiz:") cause]
      ∧ match generateContent E request with
        | inl thrown => cause = thrown
        | inr response =>
            match JSON_parse E (GenerateContentResponse.text response) with
            | inl thrown => cause = thrown
            | inr result =>
                match dot_questions result with
                | inl thrown => cause = thrown
                | inr questions => cause = aiFailedToGenerate
                end
            end
        end.
Proof. apply generateQuiz_failures_are_wrapped_full. Qed.

Lemma generateQuiz_failures_are_wrapped_witness :
  log (generateQuizFromNotes emptyQuizEnv [note60] initWorld).2
  = log initWorld
    ++ [CallGenerateContent (quizRequest (allNotesContent [note60]));
        ConsoleError (lit "Error generating quiz:") aiFailedToGenerate]
  ∧ log (generateQuizFromNotes offlineEnv [note60] initWorld).2
    = log initWorld
      ++ [CallGenerateContent (quizRequest (allNotesContent [note60]));
          ConsoleError (lit "Error generating quiz:") (Error (lit "offline"))].
Proof.
  assert (50 ≤ length (trim (allNotesContent [note60])))%nat as Hlen
    by (vm_compute; lia).
  split.
  - destruct (generateQuiz_failures_are_wrapped emptyQuizEnv [note60] initWorld
                (generateQuizFromNotes emptyQuizEnv [note60] initWorld).2
                failedToGenerateQuiz Hlen eq_refl)
      as (_ & cause & Hlog & Hcause).
    cbn in Hcause. by rewrite Hlog, Hcause.
  - destruct (generateQuiz_failures_are_wrapped offlineEnv [note60] initWorld
                (generateQuizFromNotes offlineEnv [note60] initWorld).2
                failedToGenerateQuiz Hlen eq_refl)
      as (_ & cause & Hlog & Hcause).
    cbn in Hcause. by rewrite Hlog, Hcause.
Defined.

(** ** Further properties: the chat exchange *)

(** The world [handleSend] leaves when it goes ahead, case by case. *)
Lemma handleSend_world E w :
  trim (ChatView.input (chatView w)) ≠ [] →
  ChatView.isLoading (chatView w) = false →
  let userMessage :=
    ChatMessage.mk (toString (clock E (reads w))) user (ChatView.input (chatView w)) in
  let mid := toString (clock E (S (reads w)) + 1) in
  let h1 := upsertMessage userMessage (chatHistoryOf w) in
  let call := CallGenerateContentStream (chatRequestOf w) in
  handleSend E w
  = (inr (),
     match generateContentStream E (chatRequestOf w) with
     | inl cause =>
         mkWorld
           (App.mk (App.view (app w)) (App.notes (app w))
              (upsertMessage
                 (ChatMessage.mk mid model
                    (lit "Error: " ++ messageOf failedToGetChatResponse))
                 h1)
              (App.quizHistory (app w)) (App.isUploaderOpen (app w))
              (App.activeNote (app w)))
           (ChatView.mk [] false (Some (messageOf failedToGetChatResponse)))
           (quizView w)
           ((log w ++ [call])
            ++ [ConsoleError (lit "Error getting chat response:") cause])
           (S (S (reads w)))
     | inr stream =>
         let h3 :=
           streamed mid [] (fragments stream)
             (upsertMessage (ChatMessage.mk mid model (lit "...")) h1) in
         match Stream.failure stream with
         | None =>
             mkWorld
               (App.mk (App.view (app w)) (App.notes (app w)) h3
                  (App.quizHistory (app w)) (App.isUploaderOpen (app w))
                  (App.activeNote (app w)))
               (ChatView.mk [] false None) (quizView w) (log w ++ [call])
               (S (S (reads w)))
         | Some e =>
             mkWorld
               (App.mk (App.view (app w)) (App.notes (app w))
                  (upsertMessage
                     (ChatMessage.mk (toString (clock E (S (S (reads w))) + 1)) model
                        (lit "Error: " ++ messageOf e))
                     h3)
                  (App.quizHistory (app w)) (App.isUploaderOpen (app w))
                  (App.activeNote (app w)))
               (ChatView.mk [] false (Some (messageOf e))) (quizView w)
               (log w ++ [call]) (S (S (S (reads w))))
         end
     end).
Proof.
  intros Hinput Hloading userMessage mid h1 call.
  destruct (generateContentStream E (chatRequestOf w)) as [cause|stream] eqn:Hstream.
  - unfold handleSend. unfold get at 1. unfold mbind at 1, Eff_bind at 1.
    cbn [fst snd]. rewrite Hloading, bool_decide_eq_false_2 by done.
    cbn [orb]. unfold chatRequestOf, apiHistoryOf, chatHistoryOf, notesOf in Hstream.
    unfold handleNewChatMessage, setChatHistory, setInput, setChatIsLoading,
      setChatError.
    run_eff. rewrite Hstream. reflexivity.
  - unfold handleSend. unfold get at 1. unfold mbind at 1, Eff_bind at 1.
    cbn [fst snd]. rewrite Hloading, bool_decide_eq_false_2 by done.
    cbn [orb]. unfold chatRequestOf, apiHistoryOf, chatHistoryOf, notesOf in Hstream.
    unfold handleNewChatMessage, setChatHistory, setInput, setChatIsLoading,
      setChatError.
    run_eff. rewrite Hstream. cbn [fst snd].
    destruct stream as [chunks failure]. unfold fragments.
    cbn [Stream.chunks Stream.failure].
    destruct chunks as [|chunk chunks].
    + cbn [forAwaitChunks]. run_eff. destruct failure; reflexivity.
    + rewrite (forAwaitChunks_run mid); [|intros; reflexivity|done].
      destruct failure; reflexivity.
Qed.

Lemma handleSend_idle E w :
  bool_decide (trim (ChatView.input (chatView w)) = [])
  || ChatView.isLoading (chatView w) = true →
  handleSend E w = (inr (), w).
Proof.
  intros Hguard. unfold handleSend. unfold get at 1.
  unfold mbind at 1, Eff_bind at 1. cbn [fst snd]. by rewrite Hguard.
Qed.

(** X8.  [handleSend] does nothing at all (no message, no call, no clock
    reading) when the input is blank or an exchange is running, and only
    then. *)
Theorem handleSend_refuses_blank_or_busy (E : Env) (w : World) :
  handleSend E w = (inr (), w)
  ↔ trim (ChatView.input (chatView w)) = [] ∨ ChatView.isLoading (chatView w) = true.
Proof.
  split.
  - intros Hrun.
    destruct (decide (trim (ChatView.input (chatView w)) = [])) as [|Hinput];
      [by left|].
    destruct (ChatView.isLoading (chatView w)) eqn:Hloading; [by right|exfalso].
    rewrite handleSend_world in Hrun by done.
    apply (f_equal (λ r, reads r.2)) in Hrun. cbn [snd] in Hrun.
    destruct (generateContentStream E _) as [?|[? [?|]]];
      cbn [reads Stream.failure] in Hrun; lia.
  - intros [Hblank|Hbusy]; apply handleSend_idle.
    + by rewrite bool_decide_eq_true_2.
    + rewrite Hbusy. apply orb_true_r.
Qed.



(** X10.  When the call to the service itself fails, whatever the cause, the
    history gets the user message and then, under the id drawn from the next
    clock reading, a model message reading [Error: Failed to get chat
    response from AI.]; the same text without the prefix is the error shown
    under the input, and the cause goes to [console.error]. *)
Theorem handleSend_call_failure (E : Env) (w : World) (cause : Thrown) :
  trim (ChatView.input (chatView w)) ≠ [] →
  ChatView.isLoading (chatView w) = false →
  generateContentStream E (chatRequestOf w) = inl cause →
  let w' := exec (handleSend E) w in
  chatHistoryOf w'
  = upsertMessage
      (ChatMessage.mk (toString (clock E (S (reads w)) + 1)) model
         (lit "Error: Failed to get chat response from AI."))
      (upsertMessage
         (ChatMessage.mk (toString (clock E (reads w))) user
            (ChatView.input (chatView w)))
         (chatHistoryOf w))
  ∧ ChatView.error (chatView w') = Some (lit "Failed to get chat response from AI.")
  ∧ log w'
    = log w
      ++ [CallGenerateContentStream (chatRequestOf w);
          ConsoleError (lit "Error getting chat response:") cause].
Proof.
  intros Hinput Hloading Hcall w'. subst w'. unfold exec.
  rewrite handleSend_world by done. rewrite Hcall. cbn [snd].
  split_and!; [reflexivity|reflexivity|]. cbn [log]. by rewrite <- app_assoc.
Qed.

Lemma handleSend_call_failure_witness :
  ChatView.error (chatView (exec (handleSend offlineEnv) chatWorld))
  = Some (lit "Failed to get chat response from AI.").
Proof.
  apply (handleSend_call_failure offlineEnv chatWorld (Error (lit "offline"))).
  - vm_compute. discriminate.
  - reflexivity.
  - reflexivity.
Defined.

(** ** Further properties: the quiz screen *)

Lemma selectedAt_arraySet (l : list Selected) (i j : Z) (x : Selected) :
  selectedAt (arraySet SUndefined i x l) j
  = if decide (j = i ∧ 0 ≤ i) then x else selectedAt l j.
Proof.
  unfold selectedAt, arraySet.
  destruct (decide (i < 0)) as [Hi|Hi].
  - rewrite (bool_decide_eq_true_2 (i < 0)) by done.
    rewrite decide_False by lia. done.
  - rewrite (bool_decide_eq_false_2 (i < 0)) by done.
    destruct (decide (j < 0)) as [Hj|Hj].
    { rewrite (bool_decide_eq_true_2 (j < 0)) by done.
      by rewrite decide_False by lia. }
    rewrite (bool_decide_eq_false_2 (j < 0)) by done.
    destruct (decide (Z.to_nat i < length l)%nat) as [Hin|Hout].
    + rewrite bool_decide_eq_true_2 by done.
      destruct (decide (j = i ∧ 0 ≤ i)) as [[-> _]|Hne].
      * by rewrite list_lookup_insert_eq.
      * rewrite list_lookup_insert_ne by lia. done.
    + rewrite bool_decide_eq_false_2 by done.
      destruct (decide (j = i ∧ 0 ≤ i)) as [[-> _]|Hne].
      * rewrite lookup_app_r by lia. rewrite lookup_app_r by (rewrite length_replicate; lia).
        rewrite length_replicate.
        replace (Z.to_nat i - length l - (Z.to_nat i - length l))%nat with 0%nat by lia.
        done.
      * destruct (decide (Z.to_nat j < length l)%nat) as [Hjl|Hjl].
        { by rewrite lookup_app_l by lia. }
        rewrite lookup_app_r by lia.
        rewrite (lookup_ge_None_2 l) by lia. cbn [default].
        destruct (decide (Z.to_nat j - length l < Z.to_nat i - length l)%nat) as [Hmid|Hend].
        { rewrite lookup_app_l by (rewrite length_replicate; lia).
          by rewrite lookup_replicate_2 by lia. }
        rewrite lookup_app_r by (rewrite length_replicate; lia).
        rewrite length_replicate.
        destruct (Z.to_nat j - length l - (Z.to_nat i - length l))%nat eqn:Hd; [lia|].
        done.
Qed.

(** X11.  Choosing an option changes nothing once the quiz is finished;
    before that it puts the option in the slot of the current question and
    leaves the slot of every other question, the position, the score and the
    application as they were, so the last choice made for a question is the
    one that counts. *)
Theorem handleSelectAnswer_sets_current_slot (optionIndex : Z) (w : World) :
  let q := quizView w in
  let w' := exec (handleSelectAnswer optionIndex) w in
  let q' := quizView w' in
  (QuizView.isFinished q = true → w' = w)
  ∧ (QuizView.isFinished q = false →
     (0 ≤ QuizView.currentQuestionIndex q →
      selectedAt (QuizView.selectedAnswers q') (QuizView.currentQuestionIndex q)
      = SNum optionIndex)
     ∧ (∀ j, j ≠ QuizView.currentQuestionIndex q →
             selectedAt (QuizView.selectedAnswers q') j
             = selectedAt (QuizView.selectedAnswers q) j)
     ∧ QuizView.currentQuestionIndex q' = QuizView.currentQuestionIndex q
     ∧ QuizView.questions q' = QuizView.questions q
     ∧ QuizView.score q' = QuizView.score q
     ∧ app w' = app w).
Proof.
  destruct w as [a c [qs ld er k sel fin s] l r].
  cbn [quizView QuizView.isFinished QuizView.currentQuestionIndex
       QuizView.selectedAnswers QuizView.questions QuizView.score].
  split.
  - intros ->. reflexivity.
  - intros ->. unfold exec. run_quiz.
    cbn [snd quizView app QuizView.selectedAnswers QuizView.currentQuestionIndex
         QuizView.questions QuizView.score].
    split_and!; try done.
    + intros Hk. rewrite selectedAt_arraySet. by rewrite decide_True.
    + intros j Hj. rewrite selectedAt_arraySet. by rewrite decide_False by tauto.
Qed.

Lemma handleSelectAnswer_sets_current_slot_witness :
  selectedAt
    (QuizView.selectedAnswers
       (quizView
          (exec (handleSelectAnswer 2)
             (exec (handleSelectAnswer 1)
                (exec (fetchQuiz (inr [sampleQuestion])) initWorld)))))
    0
  = SNum 2.
Proof.
  apply (handleSelectAnswer_sets_current_slot 2
           (exec (handleSelectAnswer 1)
              (exec (fetchQuiz (inr [sampleQuestion])) initWorld))).
  - reflexivity.
  - vm_compute. discriminate.
Defined.

Lemma perform_quizInvariant E qs act w :
  available (quizView w) act = true →
  quizInvariant qs (quizView w) →
  quizInvariant qs (quizView (exec (perform E act) w)).
Proof.
  destruct w as [a c [qs' ld er k sel fin s] l r].
  unfold quizInvariant, available, exec.
  cbn [quizView QuizView.questions QuizView.isLoading QuizView.error
       QuizView.currentQuestionIndex QuizView.selectedAnswers QuizView.isFinished].
  intros Hav (-> & -> & -> & Hk & Hlen & Hslots).
  rewrite bool_decide_eq_false_2 in Hav by (by intros [? ?]).
  destruct fin.
  - (* the result screen: only Review Answers *)
    destruct act; try done. cbn [perform]. run_quiz. cbn.
    split_and!; try done; try lia.
    intros i question Hq. specialize (Hslots i question Hq).
    destruct (sel !! i) as [[| |n]|]; try done. by destruct Hslots.
  - destruct (qs !! Z.to_nat k) as [currentQuestion|] eqn:Hcurrent; [|done].
    destruct act as [index| | |outcome]; [| |done|done]; cbn [perform].
    + (* an option *)
      apply bool_decide_eq_true_1 in Hav. run_quiz. cbn.
      unfold arraySet. rewrite bool_decide_eq_false_2 by lia.
      rewrite bool_decide_eq_true_2 by lia.
      split_and!; try done; try lia; try (by rewrite length_insert).
      intros i question Hq. specialize (Hslots i question Hq).
      destruct (decide (i = Z.to_nat k)) as [->|Hne].
      * rewrite list_lookup_insert_eq by lia. by simplify_eq.
      * by rewrite list_lookup_insert_ne.
    + (* Next or Finish *)
      apply negb_true_iff in Hav.
      assert (∃ n, sel !! Z.to_nat k = Some (SNum n)) as [n Hn].
      { specialize (Hslots _ _ Hcurrent). unfold selectedAt in Hav.
        rewrite bool_decide_eq_false_2 in Hav by lia.
        destruct (sel !! Z.to_nat k) as [[| |n]|]; try done. by exists n. }
      run_quiz. case_bool_decide as Hlast; cbn.
      * split_and!; try done; try lia.
        intros i question Hq. specialize (Hslots i question Hq).
        destruct (sel !! i) as [[| |m]|] eqn:Hi; try done.
        destruct Hslots as [_ Hge]. split; [done|].
        destruct (decide (i = Z.to_nat k)) as [->|Hne]; [congruence|lia].
      * split_and!; try done; try lia.
        intros i question Hq. specialize (Hslots i question Hq).
        destruct (sel !! i) as [[| |m]|] eqn:Hi; try done.
        destruct Hslots as [_ Hge]. apply lookup_lt_Some in Hq.
        assert (i = Z.to_nat k) as -> by lia. congruence.
Qed.

Lemma interact_quizInvariant E qs actions w w' :
  forallb isClick actions = true →
  interact E actions w = Some w' →
  quizInvariant qs (quizView w) → quizInvariant qs (quizView w').
Proof.
  revert w. induction actions as [|act actions IH]; intros w;
    cbn [interact forallb].
  - by intros _ [= <-].
  - intros [Hclick Hclicks]%andb_true_iff.
    assert (match act with
            | NotesChange _ => true
            | _ => available (quizView w) act
            end = available (quizView w) act) as -> by (by destruct act).
    destruct (available (quizView w) act) eqn:Hav; [|done].
    destruct (perform E act w) as [[e|[]] w1] eqn:Hact; [done|].
    intros Hrest Hw. eapply IH; [exact Hclicks|exact Hrest|].
    replace w1 with (exec (perform E act) w) by (unfold exec; by rewrite Hact).
    by apply perform_quizInvariant.
Qed.

(** X12.  From a quiz fetched with at least one question, and for as long as
    the notes stay the same (no other fetch is started), whatever the user
    clicks, the questions stay the fetched ones, the position stays within
    them, there is exactly one answer slot per question, every chosen answer
    is an option of its question, every question before the position is
    answered, and a finished quiz has every question answered. *)
Theorem quiz_screen_invariant (E : Env) (questions : list Question.t)
    (actions : list Action) (w0 w' : World) :
  questions ≠ [] →
  quizView w0 = QuizView.init →
  forallb isClick actions = true →
  interact E actions (exec (fetchQuiz (inr questions)) w0) = Some w' →
  let q := quizView w' in
  QuizView.questions q = questions
  ∧ 0 ≤ QuizView.currentQuestionIndex q < Z.of_nat (length questions)
  ∧ length (QuizView.selectedAnswers q) = length questions
  ∧ (∀ i question,
       questions !! i = Some question →
       (∃ a, QuizView.selectedAnswers q !! i = Some (SNum a)
             ∧ 0 ≤ a < Z.of_nat (length (Question.options question)))
       ∨ (QuizView.selectedAnswers q !! i = Some SNull
          ∧ QuizView.isFinished q = false
          ∧ QuizView.currentQuestionIndex q ≤ Z.of_nat i)).
Proof.
  intros Hne Hinit Hclicks Hrun q. subst q.
  assert (quizInvariant questions (quizView w')) as (Hqs & _ & _ & Hk & Hlen & Hslots).
  { eapply interact_quizInvariant; [exact Hclicks|exact Hrun|].
    destruct w0 as [a c q0 l r]. cbn [quizView] in Hinit. subst q0.
    rewrite fetchQuiz_ready. unfold quizInvariant. cbn.
    split_and!; try done.
    - destruct questions; [done|]. cbn [Datatypes.length]. lia.
    - by rewrite length_replicate.
    - intros i question Hq. apply lookup_lt_Some in Hq.
      rewrite lookup_replicate_2 by done. split; [done|lia]. }
  split_and!; try done; try lia.
  intros i question Hq. specialize (Hslots i question Hq).
  destruct (QuizView.selectedAnswers (quizView w') !! i) as [[| |a]|]; try done.
  - right. by destruct Hslots.
  - left. by exists a.
Qed.

Lemma quiz_screen_invariant_witness :
  ∃ w',
    interact helloEnv [ClickOption 1; ClickNext; ClickReview]
      (exec (fetchQuiz (inr [sampleQuestion])) initWorld)
    = Some w'
    ∧ QuizView.questions (quizView w') = [sampleQuestion]
    ∧ 0 ≤ QuizView.currentQuestionIndex (quizView w') < 1.
Proof.
  assert (∃ w', interact helloEnv [ClickOption 1; ClickNext; ClickReview]
                  (exec (fetchQuiz (inr [sampleQuestion])) initWorld) = Some w')
    as [w' Hrun].
  { unfold initWorld. rewrite fetchQuiz_ready.
    rewrite (interact_option _ _ _ _ _ _ _ _ _ sampleQuestion);
      [|reflexivity|cbn; lia].
    change (arraySet SUndefined 0 (SNum 1) (replicate (length [sampleQuestion]) SNull))
      with [SNum 1].
    rewrite (interact_next_finish _ _ _ _ _ _ _ _ _ sampleQuestion);
      [|reflexivity|vm_compute; discriminate|cbn; lia].
    rewrite interact_review. eexists. reflexivity. }
  exists w'. split; [exact Hrun|].
  destruct (quiz_screen_invariant helloEnv [sampleQuestion]
              [ClickOption 1; ClickNext; ClickReview] initWorld w')
    as (Hqs & Hk & _); [discriminate|reflexivity|reflexivity|exact Hrun|].
  split; [exact Hqs|exact Hk].
Defined.

(** X13.  Wherever the options of a question are on the screen, the style of
    an option is the selected one if it is the answer chosen for the current
    question and the unselected one otherwise: the correct, incorrect and
    neutral styles of [getOptionClass] are never shown. *)
Theorem getOptionClass_on_screen (q : QuizView.t) (index optionIndex : Z) :
  available q (ClickOption index) = true →
  getOptionClass q optionIndex
  = inr (if decide (selectedAt (QuizView.selectedAnswers q)
                      (QuizView.currentQuestionIndex q)
                    = SNum optionIndex)
         then selectedClass else unselectedClass)
  ∧ getOptionClass q optionIndex
    ∉ [inr correctClass; inr incorrectClass; inr neutralClass].
Proof.
  intros Hav.
  assert (QuizView.isFinished q = false) as Hfin.
  { unfold available in Hav.
    destruct (QuizView.isLoading q); [done|].
    destruct (bool_decide (is_Some (QuizView.error q))); [done|].
    by destruct (QuizView.isFinished q). }
  assert (getOptionClass q optionIndex
          = inr (if decide (selectedAt (QuizView.selectedAnswers q)
                              (QuizView.currentQuestionIndex q)
                            = SNum optionIndex)
                 then selectedClass else unselectedClass)) as Hclass.
  { unfold getOptionClass. rewrite Hfin. cbn [negb]. f_equal.
    unfold strictEqNum.
    destruct (selectedAt _ _) as [| |n]; try by rewrite decide_False.
    case_bool_decide as Hn.
    - by rewrite decide_True by congruence.
    - by rewrite decide_False by congruence. }
  split; [exact Hclass|]. rewrite Hclass.
  destruct (decide _); intros Hin;
    repeat (apply elem_of_cons in Hin as [Hin|Hin]; [by vm_compute in Hin|]);
    by apply elem_of_nil in Hin.
Qed.

Lemma getOptionClass_on_screen_witness :
  getOptionClass (quizView (exec (fetchQuiz (inr [sampleQuestion])) initWorld)) 2
  = inr unselectedClass.
Proof.
  apply (getOptionClass_on_screen
           (quizView (exec (fetchQuiz (inr [sampleQuestion])) initWorld)) 0 2).
  reflexivity.
Defined.

(** X14.  When the gateway fails, the quiz screen ends up not loading and
    showing one of exactly two messages (not enough content, or the single
    generation failure) and offers no action of its own; the questions and
    answers it held stay as they were. *)
Theorem fetchQuiz_failure_screen (E : Env) (notes : list Note.t)
    (w0 w1 w : World) (e : Thrown) (act : Action) :
  generateQuizFromNotes E notes w0 = (inl e, w1) →
  let q' := quizView (exec (fetchQuiz (inl e)) w) in
  (QuizView.error q'
   = Some (lit "Not enough content to generate a quiz. Please add more notes.")
   ∨ QuizView.error q'
     = Some (lit "Failed to generate quiz from AI. The content might be too complex or the service is unavailable."))
  ∧ QuizView.isLoading q' = false
  ∧ available q' act = false
  ∧ QuizView.questions q' = QuizView.questions (quizView w)
  ∧ QuizView.selectedAnswers q' = QuizView.selectedAnswers (quizView w).
Proof.
  intros Hrun q'. subst q'.
  assert (e = notEnoughContent ∨ e = failedToGenerateQuiz) as He.
  { destruct (decide (length (trim (allNotesContent notes)) < 50)%nat) as [Hlt|Hge].
    - left. apply (generateQuiz_rejected_iff E notes w0) in Hlt.
      rewrite Hrun in Hlt. by injection Hlt.
    - right. eapply generateQuiz_failures_are_wrapped_helper; [|exact Hrun]. lia. }
  destruct w as [a c [qs ld er k sel fin s] l r].
  unfold exec. run_quiz. cbn.
  split_and!; try done.
  destruct He as [-> | ->]; [by left|by right].
Qed.

Lemma fetchQuiz_failure_screen_witness :
  QuizView.isLoading
    (quizView (exec (fetchQuiz (inl notEnoughContent)) initWorld))
  = false.
Proof.
  apply (fetchQuiz_failure_screen helloEnv [noteHi] initWorld initWorld initWorld
           notEnoughContent ClickNext).
  vm_compute. reflexivity.
Defined.

(** X20.  A fetch that gives questions puts them on the screen with one
    empty answer slot each and leaves the position, the finished flag and
    the score as they were: started by a change of the notes in the middle
    of a quiz or on the result screen, it resets none of them.  Nothing
    else of the world changes. *)
Theorem fetchQuiz_keeps_progress (questions : list Question.t) (w : World) :
  let q := quizView w in
  let w' := exec (fetchQuiz (inr questions)) w in
  quizView w'
  = QuizView.mk questions false None (QuizView.currentQuestionIndex q)
      (replicate (length questions) SNull) (QuizView.isFinished q) (QuizView.score q)
  ∧ app w' = app w
  ∧ chatView w' = chatView w
  ∧ log w' = log w
  ∧ reads w' = reads w.
Proof. by destruct w as [a c [qs ld er k sel fin s] l rd]. Qed.

(** ** Further properties: the uploader *)

Lemma split_nonempty sep s : split sep s ≠ [].
Proof.
  destruct s as [|c s]; [done|]. cbn [split].
  destruct (c =? sep)%N; [done|]. by destruct (split sep s).
Qed.

Lemma join_split sep s : join [sep] (split sep s) = s.
Proof.
  induction s as [|c s IH]; [done|]. cbn [split].
  pose proof (split_nonempty sep s) as Hne.
  destruct (c =? sep)%N eqn:Hc.
  - apply N.eqb_eq in Hc as ->.
    destruct (split sep s) as [|piece pieces]; [done|].
    rewrite join_cons_cons, IH. done.
  - destruct (split sep s) as [|piece [|piece' pieces]]; [done| |].
    + cbn in IH |- *. by rewrite IH.
    + rewrite join_cons_cons in IH |- *. by rewrite <- IH.
Qed.

Lemma split_without sep s : sep ∉ s → split sep s = [s].
Proof.
  induction s as [|c s IH]; [done|]. intros Hnotin.
  cbn [split]. rewrite (proj2 (N.eqb_neq c sep)).
  - rewrite IH; [done|]. intros Hin. apply Hnotin. by right.
  - intros ->. apply Hnotin. by left.
Qed.

Lemma split_at_first sep a b :
  sep ∉ a → split sep (a ++ sep :: b) = a :: split sep b.
Proof.
  induction a as [|c a IH]; intros Hnotin.
  - cbn [Datatypes.app split]. by rewrite N.eqb_refl.
  - cbn [Datatypes.app split]. rewrite (proj2 (N.eqb_neq c sep)).
    + rewrite IH; [done|]. intros Hin. apply Hnotin. by right.
    + intros ->. apply Hnotin. by left.
Qed.

Lemma split_at_last sep a b :
  sep ∉ b → split sep (a ++ sep :: b) = split sep a ++ [b].
Proof.
  intros Hnotin. induction a as [|c a IH].
  - cbn [Datatypes.app split]. rewrite N.eqb_refl. by rewrite split_without.
  - cbn [Datatypes.app split]. rewrite IH.
    destruct (c =? sep)%N; [done|].
    pose proof (split_nonempty sep a).
    by destruct (split sep a).
Qed.

Ltac absent_from_list :=
  let Hin := fresh "Hin" in
  vm_compute; intros Hin;
  repeat (apply elem_of_cons in Hin as [Hin|Hin]; [discriminate Hin|]);
  by apply elem_of_nil in Hin.

(** X15.  The title proposed for an image is the file name up to its last
    dot; a name without a dot, or with nothing before its only dot, gets the
    title [Untitled Image]. *)
Theorem titleOfFileName_stem (name : jsstring) :
  (dot ∉ name → titleOfFileName name = lit "Untitled Image")
  ∧ (∀ stem extension,
       name = stem ++ dot :: extension → dot ∉ extension →
       titleOfFileName name = if decide (stem = []) then lit "Untitled Image" else stem).
Proof.
  split.
  - intros Hnodot. unfold titleOfFileName. by rewrite split_without.
  - intros stem extension -> Hext. unfold titleOfFileName.
    rewrite split_at_last by done.
    rewrite length_app, Nat.add_sub. rewrite take_app_length, join_split.
    by destruct (decide (stem = [])); [rewrite bool_decide_eq_true_2
                                      |rewrite bool_decide_eq_false_2].
Qed.

Lemma titleOfFileName_stem_witness :
  titleOfFileName (lit "notes") = lit "Untitled Image"
  ∧ titleOfFileName (lit "archive.tar" ++ dot :: lit "gz") = lit "archive.tar".
Proof.
  split.
  - apply (proj1 (titleOfFileName_stem (lit "notes"))). absent_from_list.
  - assert (dot ∉ lit "gz") as Hext by absent_from_list.
    exact (proj2 (titleOfFileName_stem (lit "archive.tar" ++ dot :: lit "gz"))
             (lit "archive.tar") (lit "gz") eq_refl Hext).
Defined.

(** X16.  [fileToGenerativePart] hands on the MIME type of the file and, of a
    data URL whose header holds no comma, the text between its first comma
    and the next one, or up to the end when there is no other comma; a
    result without a comma gives [undefined] as the image data, and after a
    failed read the function never returns. *)
Theorem fileToGenerativePart_payload (U : UploaderEnv) (file : File.t)
    (u : UploaderWorld) :
  (∀ header payload rest,
     readAsDataURL U file = Some (header ++ comma :: payload ++ rest) →
     comma ∉ header → comma ∉ payload →
     rest = [] ∨ (∃ tail, rest = comma :: tail) →
     fileToGenerativePart U file u = (Returned (File.type file, Some payload), u))
  ∧ (∀ result,
       readAsDataURL U file = Some result → comma ∉ result →
       fileToGenerativePart U file u = (Returned (File.type file, None), u))
  ∧ (readAsDataURL U file = None → fileToGenerativePart U file u = (Pending, u)).
Proof.
  unfold fileToGenerativePart. split_and!.
  - intros header payload rest -> Hheader Hpayload [->|[tail ->]];
      rewrite split_at_first by done.
    + by rewrite app_nil_r, split_without.
    + by rewrite split_at_first.
  - intros result -> Hresult. by rewrite split_without.
  - by intros ->.
Qed.

Lemma fileToGenerativePart_payload_witness :
  fileToGenerativePart readingEnv pageFile (mountUploader initWorld)
  = (Returned (lit "image/png", Some (lit "QUJD")), mountUploader initWorld)
  ∧ fileToGenerativePart twoCommaEnv pageFile (mountUploader initWorld)
    = (Returned (lit "image/png", Some (lit "b")), mountUploader initWorld)
  ∧ fileToGenerativePart unreadableEnv pageFile (mountUploader initWorld)
    = (Pending, mountUploader initWorld).
Proof.
  split_and!.
  - apply (proj1 (fileToGenerativePart_payload readingEnv pageFile
                    (mountUploader initWorld))
             (lit "data:image/png;base64") (lit "QUJD") []).
    + reflexivity.
    + absent_from_list.
    + absent_from_list.
    + by left.
  - apply (proj1 (fileToGenerativePart_payload twoCommaEnv pageFile
                    (mountUploader initWorld))
             (lit "data:a") (lit "b") (comma :: lit "c")).
    + reflexivity.
    + absent_from_list.
    + absent_from_list.
    + right. by exists (lit "c").
  - by apply (proj2 (proj2 (fileToGenerativePart_payload unreadableEnv pageFile
                              (mountUploader initWorld)))).
Defined.

Lemma handleImageUpload_frame U file u :
  app (base (handleImageUpload U (Some file) u).2) = app (base u).
Proof.
  destruct u as [f calls w].
  unfold handleImageUpload, fileToGenerativePart, extractTextFromImage,
    ai_models_generateVisionContent, tryFinallyUp, tryCatchUp, throwUp,
    neverSettles, liftEff, console_error, emit, modify, setUploaderIsLoading,
    setUploaderError, setImageFile, setNoteTitle, setNoteContent, withForm,
    mbind, mret, Up_bind, Up_ret.
  destruct (readAsDataURL U file) as [url|]; cbn; [|done].
  destruct (generateVisionContent U _) as [cause|response]; cbn; by destruct w.
Qed.


Lemma handleSubmit_rejects E u :
  trim (NoteUploader.noteTitle (form u)) = []
  ∨ trim (NoteUploader.noteContent (form u)) = [] →
  is_Some (NoteUploader.uploadType (form u)) →
  (handleSubmit E u).1 = Returned tt
  ∧ base (handleSubmit E u).2 = base u
  ∧ NoteUploader.error (form (handleSubmit E u).2) ≠ [].
Proof.
  destruct u as [[uploadType noteTitle noteContent imageFile isLoading error] calls w].
  cbn [form NoteUploader.noteTitle NoteUploader.noteContent NoteUploader.uploadType].
  intros Hblank [type ->]. unfold handleSubmit, getUp, mbind, Up_bind. cbn.
  case_bool_decide as Htitle; cbn.
  - by split_and!.
  - destruct Hblank as [?|Hcontent]; [done|].
    destruct type; cbn; rewrite (bool_decide_eq_true_2 _ Hcontent); cbn.
    all: split_and!; try done.
Qed.

Lemma handleSubmit_accepts E u type :
  trim (NoteUploader.noteTitle (form u)) ≠ [] →
  trim (NoteUploader.noteContent (form u)) ≠ [] →
  NoteUploader.uploadType (form u) = Some type →
  (handleSubmit E u).1 = Returned tt
  ∧ base (handleSubmit E u).2
    = exec (addNote E (NoteUploader.noteTitle (form u))
              (NoteUploader.noteContent (form u)) type) (base u)
  ∧ NoteUploader.error (form (handleSubmit E u).2) = [].
Proof.
  destruct u as [[uploadType noteTitle noteContent imageFile isLoading error] calls w].
  cbn [form NoteUploader.noteTitle NoteUploader.noteContent NoteUploader.uploadType].
  intros Htitle Hcontent ->. unfold handleSubmit, getUp, mbind, Up_bind. cbn.
  rewrite (bool_decide_eq_false_2 _ Htitle), (bool_decide_eq_false_2 _ Hcontent).
  rewrite !andb_false_r. by cbn.
Qed.

(** X18.  Submitting the uploader form adds a note exactly when the title and
    the content both hold something other than white space: the note is
    appended after the others with the title and content as typed, not
    trimmed, and the uploader closes.  Otherwise nothing but the form
    changes, and the form shows an error. *)
Theorem handleSubmit_validation (E : Env) (u : UploaderWorld) (type : NoteType) :
  NoteUploader.uploadType (form u) = Some type →
  let title := NoteUploader.noteTitle (form u) in
  let content := NoteUploader.noteContent (form u) in
  let u' := (handleSubmit E u).2 in
  (trim title ≠ [] → trim content ≠ [] →
     notesOf (base u')
     = notesOf (base u)
       ++ [Note.mk (toISOString (clock E (reads (base u)))) title content
             (clock E (S (reads (base u)))) type]
     ∧ App.isUploaderOpen (app (base u')) = false
     ∧ NoteUploader.error (form u') = [])
  ∧ (trim title = [] ∨ trim content = [] →
     base u' = base u ∧ NoteUploader.error (form u') ≠ []).
Proof.
  intros Htype. cbn zeta. split.
  - intros Htitle Hcontent.
    destruct (handleSubmit_accepts E u type Htitle Hcontent Htype)
      as (_ & -> & ->).
    by rewrite addNote_run.
  - intros Hblank.
    by destruct (handleSubmit_rejects E u Hblank (mk_is_Some _ _ Htype))
      as (_ & -> & ?).
Qed.

Lemma handleSubmit_validation_witness :
  notesOf (base (handleSubmit offlineEnv filledUploader).2)
  = notesOf (base filledUploader)
    ++ [Note.mk (toISOString (clock offlineEnv (reads (base filledUploader))))
          (lit " Cells ") (lit "The cell is the unit of life.")
          (clock offlineEnv (S (reads (base filledUploader)))) text]
  ∧ App.isUploaderOpen (app (base (handleSubmit offlineEnv filledUploader).2)) = false
  ∧ NoteUploader.error (form (handleSubmit offlineEnv filledUploader).2) = [].
Proof.
  assert (trim (lit " Cells ") ≠ []) as Htitle by (by vm_compute).
  assert (trim (lit "The cell is the unit of life.") ≠ []) as Hcontent
    by (by vm_compute).
  exact (proj1 (handleSubmit_validation offlineEnv filledUploader text eq_refl)
           Htitle Hcontent).
Defined.

Lemma uploaderPerform_step E U act u :
  uploaderAvailable u act = true →
  app (base (uploaderPerform E U act u).2) = app (base u)
  ∨ ∃ n,
      notesOf (base (uploaderPerform E U act u).2) = notesOf (base u) ++ [n]
      ∧ nonBlankNote n
      ∧ Note.type n = default text (NoteUploader.uploadType (form u))
      ∧ App.isUploaderOpen (app (base (uploaderPerform E U act u).2)) = false.
Proof.
  intros Havailable. destruct act as [type|value|value|file|]; try (by left).
  - destruct file as [file|]; [|by left].
    left. apply (handleImageUpload_frame U file u).
  - unfold uploaderAvailable in Havailable.
    apply andb_true_iff in Havailable as [_ Havailable].
    destruct (NoteUploader.uploadType (form u)) as [type|] eqn:Htype; [|done].
    cbn [uploaderPerform].
    destruct (decide (trim (NoteUploader.noteTitle (form u)) = [])) as [Htitle|Htitle].
    { left. by destruct (handleSubmit_rejects E u (or_introl Htitle)
                           (mk_is_Some _ _ Htype)) as (_ & -> & _). }
    destruct (decide (trim (NoteUploader.noteContent (form u)) = []))
      as [Hcontent|Hcontent].
    { left. by destruct (handleSubmit_rejects E u (or_intror Hcontent)
                           (mk_is_Some _ _ Htype)) as (_ & -> & _). }
    right. destruct (handleSubmit_accepts E u type Htitle Hcontent Htype)
      as (_ & -> & _).
    eexists. split; [apply addNote_run|]. by split_and!.
Qed.

Lemma uploaderInteract_closed E U actions u u' :
  App.isUploaderOpen (app (base u)) = false →
  uploaderInteract E U actions u = Some u' → u' = u.
Proof.
  intros Hclosed. destruct actions as [|act rest]; cbn [uploaderInteract].
  - by intros [= <-].
  - unfold uploaderAvailable. by rewrite Hclosed.
Qed.

Lemma uploaderInteract_session E U actions u u' :
  uploaderInteract E U actions u = Some u' →
  notesOf (base u') = notesOf (base u)
  ∨ ∃ n,
      notesOf (base u') = notesOf (base u) ++ [n]
      ∧ nonBlankNote n
      ∧ App.isUploaderOpen (app (base u')) = false.
Proof.
  revert u. induction actions as [|act rest IH]; intros u; cbn [uploaderInteract].
  - intros [= <-]. by left.
  - destruct (uploaderAvailable u act) eqn:Havailable; [|done].
    intros Hrest.
    destruct (uploaderPerform_step E U act u Havailable)
      as [Hsame|(n & Hnotes & Hn & _ & Hclosed)].
    + unfold notesOf in *. destruct (IH _ Hrest) as [Hnone|(n & Hone & Hn & Hclosed)].
      * left. by rewrite Hnone, Hsame.
      * right. exists n. by rewrite Hone, Hsame.
    + apply (uploaderInteract_closed E U) in Hrest as ->; [|done].
      right. by exists n.
Qed.

(** X19.  However the user works the uploader, from its opening to any later
    moment, at most one note is added to the store: it is appended after
    the others, its title and its content hold something other than white
    space, and with it the uploader closes. *)
Theorem uploader_session_adds_one_nonblank_note (E : Env) (U : UploaderEnv)
    (actions : list UploaderAction) (u u' : UploaderWorld) :
  uploaderInteract E U actions u = Some u' →
  notesOf (base u') = notesOf (base u)
  ∨ ∃ n,
      notesOf (base u') = notesOf (base u) ++ [n]
      ∧ nonBlankNote n
      ∧ App.isUploaderOpen (app (base u')) = false.
Proof. apply uploaderInteract_session. Qed.

Lemma uploader_session_adds_one_nonblank_note_witness :
  notesOf (base pageSubmitted) = notesOf (base (mountUploader uploaderOpenWorld))
  ∨ ∃ n,
      notesOf (base pageSubmitted)
      = notesOf (base (mountUploader uploaderOpenWorld)) ++ [n]
      ∧ nonBlankNote n
      ∧ App.isUploaderOpen (app (base pageSubmitted)) = false.
Proof.
  apply (uploader_session_adds_one_nonblank_note offlineEnv readingEnv
           [ChooseType image; SelectFile (Some pageFile); Submit]
           (mountUploader uploaderOpenWorld)).
  reflexivity.
Defined.
